(** * tssh: the SSH proxy of package [sshproxy]

    A shallow embedding of the proxy server found in the [sshproxy]
    package (connection wrapping, authentication callback, channel
    handler, stream bridge and request forwarder), followed by the
    properties established about it.

    Conventions.
    - Go handles ([net.Conn], [*gossh.Client], [gossh.Channel], request
      streams) are natural numbers.
    - A Go [error] is the string of its message; [nil] is [None].
    - Every call that leaves the package (the SSH engine, the network) is
      recorded as an [event]; what the outside world answers is read from
      an environment [Env].
    - A method body is a computation [M A]: from a [World] it yields a
      [status] (returned, panicked, or parked on a channel operation), the
      next world and the events it performed, in program order. *)

From stdpp Require Import gmap strings list.
From Stdlib Require Import ZArith.

Local Open Scope string_scope.
Local Open Scope list_scope.
Local Open Scope stdpp_scope.

(** ** Handles and plain data *)

Definition Conn := nat.
Definition Client := nat.
Definition Channel := nat.
Definition Requests := nat.
Definition Context := nat.
Definition Signer := nat.
Definition error := string.
Definition bytes := list Byte.byte.

(** [time.Duration] counts nanoseconds. *)
Definition Duration := Z.
Definition Millisecond : Duration := 1000000%Z.

(** The package constants. *)
Definition tailscaleDevice : string := "tailscaleDevice".
Definition sshContextSSHClient : string := "sshClient".
Definition defaultSSHPort : string := "22".

(** A value held in an [ssh.Context] under a string key, with the dynamic
    type a Go type assertion inspects.  A [*gossh.Client] may be a typed
    nil pointer. *)
Inductive value : Type :=
| VString (s : string)
| VClient (c : option Client)
| VOther (tag : nat).

(** The part of [ssh.Context] the proxy reads: the string-keyed value
    store, and the connection metadata behind [User], [ClientVersion] and
    [ServerVersion] (kept by the SSH layer under keys of its own). *)
Record ContextData : Type := mkContextData {
  ctx_values : gmap string value;
  ctx_User : string;
  ctx_ClientVersion : string;
  ctx_ServerVersion : string
}.

Definition empty_context : ContextData :=
  mkContextData ∅ "" "" "".

(** [gossh.RejectionReason] *)
Inductive RejectionReason : Type :=
| Prohibited
| ConnectionFailed
| UnknownChannelType
| ResourceShortage.

(** [gossh.NewChannel]: a channel-open request of the inbound peer. *)
Record NewChannel : Type := mkNewChannel {
  nc_id : nat;
  ChannelType : string;
  ExtraData : bytes
}.

(** [gossh.Request]: a typed out-of-band request on a channel. *)
Record Request : Type := mkRequest {
  req_id : nat;
  ReqType : string;
  WantReply : bool;
  Payload : bytes
}.

(** What the peer at the far end of a channel answers to a request on
    that channel: success or failure.  Such an answer carries nothing
    else; [SendRequest] of a [gossh.Channel] returns [(bool, error)]. *)
Record PeerReply : Type := mkPeerReply {
  reply_success : bool
}.

Inductive HostKeyCallback : Type :=
| InsecureIgnoreHostKey.

Inductive AuthMethod : Type :=
| PublicKeys (signer : option Signer).

(** [gossh.ClientConfig], the fields [dialDestination] sets. *)
Record ClientConfig : Type := mkClientConfig {
  User : string;
  HostKeyCallback_ : HostKeyCallback;
  Auth : list AuthMethod;
  ClientVersion : string
}.

(** ** Go channels

    A channel has a capacity, fixed by [make], and a buffer of values sent
    and not yet received. *)
Record chan (A : Type) : Type := mkChan {
  chan_cap : nat;
  chan_buf : list A
}.
Arguments mkChan {A} _ _.
Arguments chan_cap {A} _.
Arguments chan_buf {A} _.

Definition make_chan {A : Type} (cap : nat) : chan A := mkChan cap [].

Inductive send_result (A : Type) : Type :=
| HandedOver (v : A)
| Enqueued (ch : chan A)
| WouldBlock.
Arguments HandedOver {A} _.
Arguments Enqueued {A} _.
Arguments WouldBlock {A}.

(** The send statement [ch <- v].  A receiver already parked on the
    channel takes the value directly; otherwise the value goes into the
    buffer when there is room; otherwise the sender parks. *)
Definition chan_send {A : Type} (ch : chan A) (receiver_waiting : bool) (v : A)
  : send_result A :=
  if receiver_waiting then HandedOver v
  else if Nat.ltb (length (chan_buf ch)) (chan_cap ch)
       then Enqueued (mkChan (chan_cap ch) (chan_buf ch ++ [v]))
       else WouldBlock.

(** The receive expression [<-ch] on a channel nobody is parked sending
    on: the oldest buffered value, if any. *)
Definition chan_recv {A : Type} (ch : chan A) : option (A * chan A) :=
  match chan_buf ch with
  | [] => None
  | v :: rest => Some (v, mkChan (chan_cap ch) rest)
  end.

(** ** Events: the calls that leave the package *)

Inductive copy_dir : Type :=
| RemoteToLocal
| LocalToRemote.

Inductive go_task : Type :=
| GoCopy (d : copy_dir) (dst src : Channel)
| GoCopyStderr (d : copy_dir) (dst src : Channel).

Inductive event : Type :=
| ESleep (d : Duration)
| EDial (network addr : string) (config : ClientConfig)
| EClientClose (c : Client)
| EConnClose (c : Conn)
| EReject (nc : NewChannel) (reason : RejectionReason) (message : string)
| EAccept (nc : NewChannel)
| EOpenChannel (c : Client) (name : string) (data : bytes)
| EChannelClose (ch : Channel)
| ESendRequest (ch : Channel) (name : string) (wantReply : bool) (payload : bytes)
| EReplySent (req : Request) (ok : bool) (payload : bytes)
| EGo (t : go_task).

(** ** The outside world *)

Record Env : Type := mkEnv {
  (** [runtime.GOOS] *)
  GOOS : string;
  (** [gossh.Dial] *)
  Dial : string → string → ClientConfig → error + Client;
  (** [Close] of a [gossh.Client] *)
  Client_Close : Client → option error;
  (** [OpenChannel] of a [gossh.Client] *)
  Client_OpenChannel : Client → string → bytes → error + (Channel * Requests);
  (** [net.Conn.Close] *)
  Conn_Close : Conn → option error;
  (** [gossh.NewChannel.Accept] *)
  NewChannel_Accept : NewChannel → error + (Channel * Requests);
  (** [gossh.NewChannel.Reject] *)
  NewChannel_Reject : NewChannel → RejectionReason → string → option error;
  (** Sending a request on a channel: a transport fault, or the answer of
      the peer at the far end. *)
  Channel_peer : Channel → string → bool → bytes → error + PeerReply;
  (** Writing the reply of a request back to its sender. *)
  Request_ack : Request → bool → option error
}.

(** ** Worlds *)

(** A case of the [select] in [proxyChannelStreams] becoming ready: a
    receive on the third parameter, on the fourth, or on [done].  A
    receive on a closed request stream yields [nil]. *)
Inductive select_case : Type :=
| RecvLocalReqs (req : option Request)
| RecvRemoteReqs (req : option Request)
| RecvDone.

Record World : Type := mkWorld {
  (** the [ssh.Context] of each connection *)
  contexts : gmap Context ContextData;
  (** the channel behind [SSHProxy.errorChan] *)
  errorChan : chan error;
  (** how many receives the reader of [Errors()] will still perform *)
  errors_reader : nat;
  (** what that reader has received so far *)
  errors_read : list error;
  (** the cases the scheduler will hand to a running [select] loop *)
  selects : list select_case
}.

Definition set_contexts (f : gmap Context ContextData → gmap Context ContextData)
  (w : World) : World :=
  mkWorld (f (contexts w)) (errorChan w) (errors_reader w) (errors_read w) (selects w).

Definition set_selects (l : list select_case) (w : World) : World :=
  mkWorld (contexts w) (errorChan w) (errors_reader w) (errors_read w) l.

(** ** Computations *)

Inductive status (A : Type) : Type :=
| Returned (a : A)
| Panicked
| Parked.
Arguments Returned {A} _.
Arguments Panicked {A}.
Arguments Parked {A}.

Record outcome (A : Type) : Type := mkOutcome {
  out_status : status A;
  out_world : World;
  out_events : list event
}.
Arguments mkOutcome {A} _ _ _.
Arguments out_status {A} _.
Arguments out_world {A} _.
Arguments out_events {A} _.

Definition M (A : Type) : Type := World → outcome A.

Definition ret {A : Type} (a : A) : M A :=
  fun w => mkOutcome (Returned a) w [].

Definition bind {A B : Type} (c : M A) (k : A → M B) : M B :=
  fun w =>
    let o := c w in
    match out_status o with
    | Returned a =>
        let o' := k a (out_world o) in
        mkOutcome (out_status o') (out_world o') (out_events o ++ out_events o')
    | Panicked => mkOutcome Panicked (out_world o) (out_events o)
    | Parked => mkOutcome Parked (out_world o) (out_events o)
    end.

Notation "'let*' x ':=' c 'in' k" := (bind c (fun x => k))
  (at level 10, x name, c at level 100, k at level 200).
Notation "c ';;' k" := (bind c (fun _ => k))
  (at level 100, k at level 200, right associativity).

Definition emit (e : event) : M unit :=
  fun w => mkOutcome (Returned tt) w [e].

Definition panic {A : Type} : M A :=
  fun w => mkOutcome Panicked w [].

(** [ctx.Value(key)] *)
Definition ctx_Value (ctx : Context) (key : string) : M (option value) :=
  fun w =>
    mkOutcome (Returned (ctx_values (default empty_context (contexts w !! ctx)) !! key)) w [].

(** [ctx.SetValue(key, v)] *)
Definition ctx_SetValue (ctx : Context) (key : string) (v : value) : M unit :=
  fun w =>
    let d := default empty_context (contexts w !! ctx) in
    let d' := mkContextData (<[key := v]> (ctx_values d))
                (ctx_User d) (ctx_ClientVersion d) (ctx_ServerVersion d) in
    mkOutcome (Returned tt) (set_contexts (insert ctx d') w) [].

Definition ctx_meta (ctx : Context) (f : ContextData → string) : M string :=
  fun w => mkOutcome (Returned (f (default empty_context (contexts w !! ctx)))) w [].

(** The send statement [s.errorChan <- msg]. *)
Definition send_error (msg : error) : M unit :=
  fun w =>
    match chan_send (errorChan w) (bool_decide (0 < errors_reader w)) msg with
    | HandedOver v =>
        mkOutcome (Returned tt)
          (mkWorld (contexts w) (errorChan w) (pred (errors_reader w))
             (errors_read w ++ [v]) (selects w)) []
    | Enqueued ch =>
        mkOutcome (Returned tt)
          (mkWorld (contexts w) ch (errors_reader w) (errors_read w) (selects w)) []
    | WouldBlock => mkOutcome Parked w []
    end.

(** The type assertion [v.(string)] with the comma-ok form. *)
Definition assert_string (v : option value) : string * bool :=
  match v with
  | Some (VString s) => (s, true)
  | _ => ("", false)
  end.

(** The type assertion of [v] to a pointer to [gossh.Client], comma-ok form. *)
Definition assert_client (v : option value) : option Client * bool :=
  match v with
  | Some (VClient c) => (c, true)
  | _ => (None, false)
  end.

(** ** Methods of the SSH engine, as the proxy calls them *)

Section Proxy.

Variable env : Env.

(** [Close] of a [gossh.Client]. *)
Definition Client_Close_call (c : Client) : M (option error) :=
  emit (EClientClose c) ;; ret (Client_Close env c).

(** [Close] of a [net.Conn]. *)
Definition Conn_Close_call (c : Conn) : M (option error) :=
  emit (EConnClose c) ;; ret (Conn_Close env c).

(** [Close] of a [gossh.Channel]. *)
Definition Channel_Close_call (ch : Channel) : M unit :=
  emit (EChannelClose ch).

(** [OpenChannel] through a client pointer: a nil pointer faults. *)
Definition OpenChannel_call (client : option Client) (name : string) (data : bytes)
  : M (error + (Channel * Requests)) :=
  match client with
  | None => panic
  | Some c => emit (EOpenChannel c name data) ;; ret (Client_OpenChannel env c name data)
  end.

(** [SendRequest] of a [gossh.Channel] returns [(bool, error)]: the
    success flag of the peer's answer when a reply was asked for, [false]
    otherwise. *)
Definition Channel_SendRequest (ch : Channel) (name : string) (wantReply : bool)
  (payload : bytes) : M (bool * option error) :=
  emit (ESendRequest ch name wantReply payload) ;;
  match Channel_peer env ch name wantReply payload with
  | inl err => ret (false, Some err)
  | inr r => ret (if wantReply then reply_success r else false, None)
  end.

(** [Reply] of a [gossh.Request]: nothing is sent, and [nil] returned,
    when the request did not ask for a reply. *)
Definition Request_Reply (req : Request) (ok : bool) (payload : bytes)
  : M (option error) :=
  if WantReply req
  then emit (EReplySent req ok payload) ;; ret (Request_ack env req ok)
  else ret None.

(** A [defer]red call runs when the function returns or panics. *)
Definition defer {A : Type} (d : M unit) (body : M A) : M A :=
  fun w =>
    let o := body w in
    match out_status o with
    | Parked => o
    | st =>
        let o' := d (out_world o) in
        mkOutcome
          match out_status o' with
          | Returned _ => st
          | Panicked => Panicked
          | Parked => Parked
          end
          (out_world o') (out_events o ++ out_events o')
    end.

(** ** Package [sshproxy] *)

(** [sshConn] wraps the incoming [net.Conn] and a cleanup function. *)
Record sshConn : Type := mkSshConn {
  sshConn_Conn : Conn;
  cleanupFunc : M unit
}.

(** [func (c sshConn) Close() error] *)
Definition Close (c : sshConn) : M (option error) :=
  cleanupFunc c ;;
  Conn_Close_call (sshConn_Conn c).

Inductive handler : Type :=
| handler_proxyAuthCallback
| handler_connCallback
| handler_channelHandler.

(** [ssh.Server], the fields [New] sets. *)
Record Server : Type := mkServer {
  Addr : string;
  MaxTimeout : Duration;
  IdleTimeout : Duration;
  Version : string;
  PublicKeyHandler : option handler;
  ConnCallback : option handler;
  ChannelHandlers : gmap string handler
}.

Record SSHProxy : Type := mkSSHProxy {
  SSHProxy_Server : Server;
  hostname : string;
  shutdownC : nat;
  caCert : option nat;
  SSHProxy_errorChan : chan error
}.

(** [func New(version, localAddress, hostname, hostKeyDir string,
    shutdownC chan struct{}, idleTimeout, maxTimeout time.Duration)
    (ptr SSHProxy, error)].  A returned pointer is [Some], [nil] is [None]. *)
Definition New (version localAddress hostname hostKeyDir : string)
  (shutdownC : nat) (idleTimeout maxTimeout : Duration)
  : option SSHProxy * option error :=
  let sshProxy_Server :=
    mkServer localAddress maxTimeout idleTimeout
      ("SSH-2.0-tssh_" +:+ version +:+ "_" +:+ GOOS env)
      (Some handler_proxyAuthCallback)
      (Some handler_connCallback)
      {[ "default" := handler_channelHandler ]} in
  (Some (mkSSHProxy sshProxy_Server hostname shutdownC None (make_chan 0)), None).

(** [func (s *SSHProxy) Errors() <-chan error] *)
Definition Errors (s : SSHProxy) : chan error := SSHProxy_errorChan s.

(** The world a proxy starts in: no connection yet, its error channel as
    [New] made it, a reader of [Errors()] that will perform [reader]
    receives, and a scheduler script for the [select] loops. *)
Definition start_world (s : SSHProxy) (reader : nat) (script : list select_case)
  : World :=
  mkWorld ∅ (SSHProxy_errorChan s) reader [] script.

(** [func (s *SSHProxy) dialDestination(ctx ssh.Context)] *)
Definition dialDestination (ctx : Context) : M (option Client * option error) :=
  let signer : option Signer := None in
  let* v := ctx_Value ctx tailscaleDevice in
  let '(tailscaleServer, ok) := assert_string v in
  if negb ok && String.eqb tailscaleServer ""
  then ret (None, Some "failed to connect to server")
  else
    let* user := ctx_meta ctx ctx_User in
    let* serverVersion := ctx_meta ctx ctx_ServerVersion in
    let clientConfig :=
      mkClientConfig user InsecureIgnoreHostKey [PublicKeys signer] serverVersion in
    emit (EDial "tcp" tailscaleServer clientConfig) ;;
    match Dial env "tcp" tailscaleServer clientConfig with
    | inl err => ret (None, Some (err +:+ " failed to connect to destination SSH server"))
    | inr client => ret (Some client, None)
    end.

(** [func (s *SSHProxy) proxyAuthCallback(ctx ssh.Context, key ssh.PublicKey) bool] *)
Definition proxyAuthCallback (ctx : Context) (key : nat) : M bool :=
  let* r := dialDestination ctx in
  let '(client, err) := r in
  match err with
  | Some _ => ret false
  | None =>
      ctx_SetValue ctx sshContextSSHClient (VClient client) ;;
      ret true
  end.

(** [func (s *SSHProxy) connCallback(ctx ssh.Context, conn net.Conn) net.Conn].
    The closure keeps the context, not a copy of its content: it reads the
    store of the world it is run in. *)
Definition connCallback (ctx : Context) (conn : Conn) : M sshConn :=
  emit (ESleep (10 * Millisecond)%Z) ;;
  ctx_SetValue ctx tailscaleDevice (VString "") ;;
  let cleanupFunc : M unit :=
    let* v := ctx_Value ctx sshContextSSHClient in
    let '(client, ok) := assert_client v in
    match ok, client with
    | true, Some c => Client_Close_call c ;; ret tt
    | _, _ => ret tt
    end in
  ret (mkSshConn conn cleanupFunc).

(** [func (s *SSHProxy) forwardChannelRequest(sshChan gossh.Channel, req *gossh.Request) error] *)
Definition forwardChannelRequest (sshChan : Channel) (req : Request) : M (option error) :=
  let* r := Channel_SendRequest sshChan (ReqType req) (WantReply req) (Payload req) in
  let '(reply, err) := r in
  match err with
  | Some err => ret (Some (err +:+ " failed to send request"))
  | None =>
      let* err := Request_Reply req reply [] in
      match err with
      | Some err => ret (Some (err +:+ " failed to reply to request"))
      | None => ret None
      end
  end.

(** [func (s *SSHProxy) proxyStreams(localChan, remoteChan gossh.Channel, done chan struct{})]
    starts the two copy tasks; what each does is [copy_task] below. *)
Definition proxyStreams (localChan remoteChan : Channel) (done : chan unit) : M unit :=
  emit (EGo (GoCopy RemoteToLocal localChan remoteChan)) ;;
  emit (EGo (GoCopy LocalToRemote remoteChan localChan)).

(** [func (s *SSHProxy) proxyStderrStreams(localChan, remoteChan gossh.Channel, done chan struct{})]
    starts the two stderr copy tasks; neither touches [done]. *)
Definition proxyStderrStreams (localChan remoteChan : Channel) (done : chan unit) : M unit :=
  emit (EGo (GoCopyStderr LocalToRemote remoteChan localChan)) ;;
  emit (EGo (GoCopyStderr RemoteToLocal localChan remoteChan)).

Inductive loop_ctl : Type :=
| Continue
| Return.

(** One turn of the [for { select { ... } }] of [proxyChannelStreams],
    for the case that became ready. *)
Definition select_turn (localChan remoteChan : Channel) (c : select_case) : M loop_ctl :=
  match c with
  | RecvLocalReqs None => ret Return
  | RecvLocalReqs (Some req) =>
      let* err := forwardChannelRequest remoteChan req in
      match err with
      | Some err => send_error ("failed to forward request: " +:+ err) ;; ret Return
      | None => ret Continue
      end
  | RecvRemoteReqs None => ret Return
  | RecvRemoteReqs (Some req) =>
      let* err := forwardChannelRequest localChan req in
      match err with
      | Some err => send_error ("failed to forward request: " +:+ err) ;; ret Return
      | None => ret Continue
      end
  | RecvDone => ret Return
  end.

(** The loop, over the cases the scheduler hands it; with none left it
    stays parked in the [select]. *)
Fixpoint select_loop (localChan remoteChan : Channel) (cases : list select_case)
  : M unit :=
  match cases with
  | [] => fun w => mkOutcome Parked w []
  | c :: rest =>
      (fun w => mkOutcome (Returned tt) (set_selects rest w) []) ;;
      let* ctl := select_turn localChan remoteChan c in
      match ctl with
      | Continue => select_loop localChan remoteChan rest
      | Return => ret tt
      end
  end.

(** [func (s *SSHProxy) proxyChannelStreams(localChan, remoteChan gossh.Channel,
    localChanReqs, remoteChanReqs <-chan *gossh.Request, done chan struct{})] *)
Definition proxyChannelStreams (localChan remoteChan : Channel)
  (localChanReqs remoteChanReqs : Requests) (done : chan unit) : M unit :=
  fun w => select_loop localChan remoteChan (selects w) w.

(** [func (s *SSHProxy) proxyChannel(...)].  The fourth argument handed
    to [proxyChannelStreams] is [remoteChan], as in the source. *)
Definition proxyChannel (localChan remoteChan : Channel)
  (localChanReqs remoteChanReqs : Requests) (conn : nat) (ctx : Context) : M unit :=
  let done : chan unit := make_chan 2 in
  proxyStreams localChan remoteChan done ;;
  proxyStderrStreams localChan remoteChan done ;;
  proxyChannelStreams localChan remoteChan localChanReqs remoteChan done.

(** [func (s *SSHProxy) channelHandler(srv *ssh.Server, conn *gossh.ServerConn,
    newChan gossh.NewChannel, ctx ssh.Context)] *)
Definition channelHandler (srv : Server) (conn : nat) (newChan : NewChannel)
  (ctx : Context) : M unit :=
  if negb (String.eqb (ChannelType newChan) "session")
     && negb (String.eqb (ChannelType newChan) "direct-tcpip")
  then
    let msg := "channel type " +:+ ChannelType newChan +:+ " is not supported" in
    emit (EReject newChan UnknownChannelType msg) ;;
    match NewChannel_Reject env newChan UnknownChannelType msg with
    | Some err => send_error ("error rejecting SSH channel: " +:+ err)
    | None => ret tt
    end
  else
    emit (EAccept newChan) ;;
    match NewChannel_Accept env newChan with
    | inl err => send_error ("failed to accept session channel: " +:+ err)
    | inr (localChan, localChanReqs) =>
        defer (Channel_Close_call localChan)
          (let* v := ctx_Value ctx sshContextSSHClient in
           let '(client, ok) := assert_client v in
           if negb ok
           then send_error "could not retrieve client from context"
           else
             let* r := OpenChannel_call client (ChannelType newChan) (ExtraData newChan) in
             match r with
             | inl err => send_error ("failed to open remote channel: " +:+ err)
             | inr (remoteChan, remoteChanReqs) =>
                 defer (Channel_Close_call remoteChan)
                   (proxyChannel localChan remoteChan localChanReqs remoteChanReqs conn ctx)
             end)
    end.

End Proxy.

(** ** The stream bridge as interleaved tasks

    After [proxyChannel] has started its tasks, three of them matter for
    the lifetime of a channel pair: the two copy tasks of [proxyStreams],

      go func() {
        if _, err := io.Copy(dst, src); err != nil { s.errorChan <- ... }
        done <- struct{}{}
      }()

    and the handler task, which runs the [select] loop and then, on its
    way out of [channelHandler], the deferred [Close] of both channels.
    An [action] is one step of one of these tasks. *)

Inductive copy_pc : Type :=
| Copying
| Reporting (msg : error)
| Posting
| Finished.

Inductive loop_pc : Type :=
| Selecting
| LoopParked
| LoopReturned.

Record bridge : Type := mkBridge {
  b_world : World;
  b_done : chan unit;
  b_remote_to_local : copy_pc;
  b_local_to_remote : copy_pc;
  b_loop : loop_pc;
  b_closed : bool;
  b_events : list event
}.

Inductive action : Type :=
| CopyReturns (d : copy_dir) (err : option error)
| CopyReports (d : copy_dir)
| CopyPosts (d : copy_dir)
| LoopTurn (c : select_case)
| HandlerCloses.

Definition copy_of (d : copy_dir) (b : bridge) : copy_pc :=
  match d with
  | RemoteToLocal => b_remote_to_local b
  | LocalToRemote => b_local_to_remote b
  end.

Definition set_copy (d : copy_dir) (pc : copy_pc) (b : bridge) : bridge :=
  match d with
  | RemoteToLocal =>
      mkBridge (b_world b) (b_done b) pc (b_local_to_remote b) (b_loop b)
        (b_closed b) (b_events b)
  | LocalToRemote =>
      mkBridge (b_world b) (b_done b) (b_remote_to_local b) pc (b_loop b)
        (b_closed b) (b_events b)
  end.

Definition copy_error_prefix (d : copy_dir) : string :=
  match d with
  | RemoteToLocal => "remote to local copy error: "
  | LocalToRemote => "local to remote copy error: "
  end.

(** The bridge as [proxyChannel] leaves it on entering the loop. *)
Definition bridge_start (w : World) : bridge :=
  mkBridge w (make_chan 2) Copying Copying Selecting false [].

Section Bridge.

Variable env : Env.
Variables localChan remoteChan : Channel.

(** One step; [None] when the task cannot take it in this state (it is
    not at that point of its code, or the channel operation would park). *)
Definition step (b : bridge) (a : action) : option bridge :=
  match a with
  | CopyReturns d err =>
      match copy_of d b, err with
      | Copying, Some e => Some (set_copy d (Reporting (copy_error_prefix d +:+ e)) b)
      | Copying, None => Some (set_copy d Posting b)
      | _, _ => None
      end
  | CopyReports d =>
      match copy_of d b with
      | Reporting msg =>
          let o := send_error msg (b_world b) in
          match out_status o with
          | Returned _ =>
              Some (set_copy d Posting
                      (mkBridge (out_world o) (b_done b) (b_remote_to_local b)
                         (b_local_to_remote b) (b_loop b) (b_closed b) (b_events b)))
          | _ => None
          end
      | _ => None
      end
  | CopyPosts d =>
      match copy_of d b with
      | Posting =>
          match chan_send (b_done b) false tt with
          | Enqueued ch =>
              Some (set_copy d Finished
                      (mkBridge (b_world b) ch (b_remote_to_local b)
                         (b_local_to_remote b) (b_loop b) (b_closed b) (b_events b)))
          | _ => None
          end
      | _ => None
      end
  | LoopTurn c =>
      match b_loop b with
      | Selecting =>
          let ready :=
            match c with
            | RecvDone => snd <$> chan_recv (b_done b)
            | _ => Some (b_done b)
            end in
          match ready with
          | None => None
          | Some done' =>
              let o := select_turn env localChan remoteChan c (b_world b) in
              let pc :=
                match out_status o with
                | Returned Continue => Selecting
                | Returned Return => LoopReturned
                | _ => LoopParked
                end in
              Some (mkBridge (out_world o) done' (b_remote_to_local b)
                      (b_local_to_remote b) pc (b_closed b)
                      (b_events b ++ out_events o))
          end
      | _ => None
      end
  | HandlerCloses =>
      match b_loop b, b_closed b with
      | LoopReturned, false =>
          Some (mkBridge (b_world b) (b_done b) (b_remote_to_local b)
                  (b_local_to_remote b) (b_loop b) true
                  (b_events b ++ [EChannelClose remoteChan; EChannelClose localChan]))
      | _, _ => None
      end
  end.

Fixpoint run (b : bridge) (acts : list action) : option bridge :=
  match acts with
  | [] => Some b
  | a :: rest =>
      match step b a with
      | Some b' => run b' rest
      | None => None
      end
  end.

End Bridge.

(** * Observations on worlds and event lists *)

(** The content of a connection's context in a world. *)
Definition context_of (ctx : Context) (w : World) : ContextData :=
  default empty_context (contexts w !! ctx).

(** The outbound client a context holds: a non-nil client pointer under
    the key ["sshClient"]. *)
Definition stored_client (ctx : Context) (w : World) : option Client :=
  match ctx_values (context_of ctx w) !! sshContextSSHClient with
  | Some (VClient (Some c)) => Some c
  | _ => None
  end.

(** What the cleanup of a connection does to the outside. *)
Definition cleanup_events (ctx : Context) (w : World) : list event :=
  match stored_client ctx w with
  | Some c => [EClientClose c]
  | None => []
  end.

(** The outbound channel opens among some events. *)
Definition is_open (e : event) : bool :=
  match e with
  | EOpenChannel _ _ _ => true
  | _ => false
  end.

Definition opens (evs : list event) : list event := List.filter is_open evs.

(** The configuration [dialDestination] builds from a context. *)
Definition dial_config (d : ContextData) : ClientConfig :=
  mkClientConfig (ctx_User d) InsecureIgnoreHostKey [PublicKeys None] (ctx_ServerVersion d).

(** A copy task that has not posted its completion signal yet. *)
Definition pending (pc : copy_pc) : nat :=
  match pc with
  | Finished => 0
  | _ => 1
  end.

(** What every reachable state of a bridge satisfies: the completion
    channel keeps the capacity it was made with, it holds no more signals
    than copy tasks have finished, and the pair is closed only once the
    loop has returned. *)
Definition bridge_inv (b : bridge) : Prop :=
  chan_cap (b_done b) = 2
  ∧ (length (chan_buf (b_done b)) + pending (b_remote_to_local b)
      + pending (b_local_to_remote b) ≤ 2)%nat
  ∧ (b_closed b = true → b_loop b = LoopReturned).

(** * The claims that fail, as they are stated *)

(** C3, as stated: reporting an error on the channel [New] made completes
    whether or not a reader of [Errors()] is receiving. *)
Definition error_report_never_waits : Prop :=
  ∀ (env : Env) (version localAddress hostname hostKeyDir : string) (shutdownC : nat)
    (idleTimeout maxTimeout : Duration) (p : SSHProxy) (w : World) (msg : error),
    fst (New env version localAddress hostname hostKeyDir shutdownC idleTimeout maxTimeout)
    = Some p →
    errorChan w = Errors p →
    out_status (send_error msg w) = Returned tt.

(** C4, as stated: whenever the pair has been closed, both primary copy
    directions have posted their completion signal. *)
Definition closed_only_after_both_posted : Prop :=
  ∀ (env : Env) (localChan remoteChan : Channel) (w : World) (acts : list action)
    (b : bridge),
    run env localChan remoteChan (bridge_start w) acts = Some b →
    b_closed b = true →
    b_remote_to_local b = Finished ∧ b_local_to_remote b = Finished.

(** C7, as stated: the outbound dial carries the user name of the inbound
    connection and the version the inbound client announced. *)
Definition dial_uses_user_and_client_version : Prop :=
  ∀ (env : Env) (ctx : Context) (w : World) (addr : string),
    ctx_values (context_of ctx w) !! tailscaleDevice = Some (VString addr) →
    ∃ cfg,
      out_events (dialDestination env ctx w) = [EDial "tcp" addr cfg]
      ∧ User cfg = ctx_User (context_of ctx w)
      ∧ ClientVersion cfg = ctx_ClientVersion (context_of ctx w).

(** * Concrete environments, contexts and worlds *)

Definition sample_env : Env :=
  mkEnv "linux"
    (fun _ addr _ => if String.eqb addr "" then inl "dial tcp: missing address" else inr 7)
    (fun _ => Some "use of closed network connection")
    (fun _ _ _ => inr (20, 21))
    (fun _ => None)
    (fun _ => inr (10, 11))
    (fun _ _ _ => None)
    (fun _ _ _ _ => inr (mkPeerReply true))
    (fun _ _ => None).

(** An environment in which accepting an inbound channel fails. *)
Definition failing_accept_env : Env :=
  mkEnv "linux"
    (fun _ _ _ => inr 7)
    (fun _ => None)
    (fun _ _ _ => inr (20, 21))
    (fun _ => None)
    (fun _ => inl "EOF")
    (fun _ _ _ => None)
    (fun _ _ _ _ => inr (mkPeerReply true))
    (fun _ _ => None).

Definition sample_context : ContextData :=
  mkContextData {[ tailscaleDevice := VString "10.0.0.5:22" ]}
    "alice" "SSH-2.0-OpenSSH_9.6" "SSH-2.0-tssh_1.0_linux".

(** A context after a successful authentication. *)
Definition authenticated_context : ContextData :=
  mkContextData
    {[ tailscaleDevice := VString "10.0.0.5:22"; sshContextSSHClient := VClient (Some 7) ]}
    "alice" "SSH-2.0-OpenSSH_9.6" "SSH-2.0-tssh_1.0_linux".

Definition sample_world (d : ContextData) (reader : nat) (script : list select_case)
  : World :=
  mkWorld {[ 0 := d ]} (make_chan 0) reader [] script.

Definition sample_server : Server :=
  mkServer ":2222" 0%Z 0%Z "SSH-2.0-tssh_1.0_linux" (Some handler_proxyAuthCallback)
    (Some handler_connCallback) {[ "default" := handler_channelHandler ]}.

(** * Further observations *)

(** What [forwardChannelRequest] returns, read off the answers of the
    outside world. *)
Definition forward_result (env : Env) (sshChan : Channel) (req : Request) : option error :=
  match Channel_peer env sshChan (ReqType req) (WantReply req) (Payload req) with
  | inl err => Some (err +:+ " failed to send request")
  | inr r =>
      if WantReply req
      then match Request_ack env req (reply_success r) with
           | Some err => Some (err +:+ " failed to reply to request")
           | None => None
           end
      else None
  end.

(** The side of a channel pair a request arrives from. *)
Inductive side : Type :=
| Local
| Remote.

Definition arrival_case (a : side * Request) : select_case :=
  match fst a with
  | Local => RecvLocalReqs (Some (snd a))
  | Remote => RecvRemoteReqs (Some (snd a))
  end.

(** The channel a request arriving from a side is forwarded to. *)
Definition opposite (localChan remoteChan : Channel) (s : side) : Channel :=
  match s with
  | Local => remoteChan
  | Remote => localChan
  end.

(** The cases on which the loop returns without looking at a request. *)
Definition ends_loop (c : select_case) : bool :=
  match c with
  | RecvLocalReqs None | RecvRemoteReqs None | RecvDone => true
  | _ => false
  end.

Definition is_send (e : event) : bool :=
  match e with
  | ESendRequest _ _ _ _ => true
  | _ => false
  end.

Definition is_close (e : event) : bool :=
  match e with
  | EChannelClose _ => true
  | _ => false
  end.

(** Events that act on a connection as a whole rather than on one of its
    channels. *)
Definition connection_level (e : event) : bool :=
  match e with
  | ESleep _ | EDial _ _ _ | EClientClose _ | EConnClose _ => true
  | _ => false
  end.

(** Nobody receives from [Errors()], and the error channel has no buffer. *)
Definition unread_errors (w : World) : Prop :=
  errors_reader w = 0 ∧ chan_cap (errorChan w) = 0.

(** The world after a reader of [Errors()] has taken [msg]. *)
Definition after_report (msg : error) (w : World) : World :=
  mkWorld (contexts w) (errorChan w) (pred (errors_reader w)) (errors_read w ++ [msg])
    (selects w).

(** An environment in which the peer of every channel is gone. *)
Definition broken_peer_env : Env :=
  mkEnv "linux"
    (fun _ _ _ => inr 7)
    (fun _ => None)
    (fun _ _ _ => inr (20, 21))
    (fun _ => None)
    (fun _ => inr (10, 11))
    (fun _ _ _ => None)
    (fun _ _ _ _ => inl "EOF")
    (fun _ _ => None).

(** A computation that acts on channels only: it leaves every context as
    it is and performs no connection-level event. *)
Definition channel_only {A : Type} (c : M A) : Prop :=
  ∀ w, contexts (out_world (c w)) = contexts w
       ∧ List.filter connection_level (out_events (c w)) = [].

(** The channel closes a bridge has performed. *)
Definition closes_of (b : bridge) : list event := List.filter is_close (b_events b).

(** * The terminal front-end: packages [tssh], [components] and [ui] *)

(** ** Package [tssh] *)

Module tssh.

Inductive Action : Type :=
| ActionNone
| ActionSSH
| ActionDeviceSSH.

End tssh.

(** Go's [int], as wide as on the 64-bit platforms: the result of an
    operation is brought back into the range by wrapping around. *)
Definition int_wrap (z : Z) : Z := ((z + 2 ^ 63) mod 2 ^ 64 - 2 ^ 63)%Z.

(** [a - b] on [int] values. *)
Definition int_sub (a b : Z) : Z := int_wrap (a - b).

(** [tailscale.Device], the fields the front-end reads. *)
Record Device : Type := mkDevice {
  Hostname : string;
  Device_User : string;
  Tags : list string
}.

(** [components.ListItem] *)
Record ListItem : Type := mkListItem {
  Name : string;
  Info : string;
  Action : tssh.Action
}.

(** [ui.Result] at its only instance, a slice of devices. *)
Record Result : Type := mkResult {
  Success : list Device;
  Error : option error
}.

(** A [tea.Msg], by dynamic type; a key message is given by its
    [String()]. *)
Inductive Msg : Type :=
| NilMsg
| WindowSizeMsg (Width Height : Z)
| KeyMsg (keypress : string)
| TickMsg (id : nat)
| ResultMsg (r : Result)
| ListItemMsg (i : ListItem)
| OtherMsg (tag : nat).

(** A [tea.Cmd]: [nil], [tea.Quit], a command made by a widget, a batch,
    or the [selectedCmd] method value of the list model at an address. *)
#[local] Set Warnings "-register-all".
Inductive Cmd : Type :=
| CmdNil
| Quit
| WidgetCmd (tag : nat)
| Batch (cmds : list Cmd)
| SelectedCmd (ptr : nat).

(** The widgets the front-end is built from (the bubbles list and
    spinner, the lipgloss renderer): their states and the calls made on
    them. *)
Record Toolkit : Type := mkToolkit {
  list_Model : Type;
  spinner_Model : Type;
  (** [list.New] with the delegate and the styles of [NewList] applied *)
  list_New : string → list ListItem → list_Model;
  list_Update : list_Model → Msg → list_Model * Cmd;
  list_SetSize : Z → Z → list_Model → list_Model;
  list_SetItems : list ListItem → list_Model → list_Model * Cmd;
  (** [SelectedItem] asserted to [ListItem]: [None] when the assertion fails *)
  list_SelectedItem : list_Model → option ListItem;
  list_NewStatusMessage : string → list_Model → list_Model * Cmd;
  list_View : list_Model → string;
  spinner_New : spinner_Model;
  spinner_Update : spinner_Model → Msg → spinner_Model * Cmd;
  spinner_Tick : spinner_Model → Cmd;
  spinner_View : spinner_Model → string;
  (** [appStyle.GetFrameSize()] *)
  appStyle_FrameSize : Z * Z;
  statusMessageStyle : string → string;
  textStyle : string → string;
  JoinHorizontal : list string → string
}.

(** ** Package [components] *)

Module components.

(** [func (i ListItem) Title() string] *)
Definition Title (i : ListItem) : string := Name i.
(** [func (i ListItem) Description() string] *)
Definition Description (i : ListItem) : string := Info i.
(** [func (i ListItem) FilterValue() string] *)
Definition FilterValue (i : ListItem) : string := Name i.

Section Widgets.

Variable tk : Toolkit.

(** [ListModel], with the address it lives at. *)
Record ListModel : Type := mkListModel {
  ptr : nat;
  list_ : list_Model tk
}.

(** [func (m *ListModel) Init() tea.Cmd] *)
Definition Init (m : ListModel) : Cmd := CmdNil.

(** [func (m *ListModel) View() string] *)
Definition View (m : ListModel) : string := list_View tk (list_ m).

(** [func (m *ListModel) handleWindow(msg tea.WindowSizeMsg)] *)
Definition handleWindow (m : ListModel) (Width Height : Z) : ListModel * Cmd :=
  let '(h, v) := appStyle_FrameSize tk in
  let l := list_SetSize tk (int_sub Width h) (int_sub Height v) (list_ m) in
  let '(l, cmd) := list_Update tk l (WindowSizeMsg Width Height) in
  (mkListModel (ptr m) l, cmd).

(** [func (m *ListModel) handleChoose(msg tea.KeyMsg)] *)
Definition handleChoose (m : ListModel) (keypress : string) : ListModel * Cmd :=
  match list_SelectedItem tk (list_ m) with
  | None => (m, CmdNil)
  | Some i =>
      let '(l, cmd) := list_Update tk (list_ m) (KeyMsg keypress) in
      let '(l, status) :=
        list_NewStatusMessage tk (statusMessageStyle tk ("You chose " +:+ Title i)) l in
      (mkListModel (ptr m) l, Batch [cmd; status; SelectedCmd (ptr m)])
  end.

(** [func (m *ListModel) handleKeyPress(msg tea.KeyMsg)]; the binding
    [delegateKeys.choose] has the single key ["enter"]. *)
Definition handleKeyPress (m : ListModel) (keypress : string) : ListModel * Cmd :=
  if String.eqb keypress "enter"
  then handleChoose m keypress
  else
    let '(l, cmd) := list_Update tk (list_ m) (KeyMsg keypress) in
    (mkListModel (ptr m) l, cmd).

(** [func (m *ListModel) handleDefault(msg tea.Msg)] *)
Definition handleDefault (m : ListModel) (msg : Msg) : ListModel * Cmd :=
  let '(l, cmd) := list_Update tk (list_ m) msg in
  (mkListModel (ptr m) l, cmd).

(** [func (m *ListModel) Update(msg tea.Msg)] *)
Definition Update (m : ListModel) (msg : Msg) : ListModel * Cmd :=
  match msg with
  | WindowSizeMsg Width Height => handleWindow m Width Height
  | KeyMsg keypress => handleKeyPress m keypress
  | _ => handleDefault m msg
  end.

(** [func (m *ListModel) selectedCmd() tea.Msg] *)
Definition selectedCmd (m : ListModel) : Msg :=
  match list_SelectedItem tk (list_ m) with
  | None => NilMsg
  | Some i => ListItemMsg i
  end.

(** [func (m *ListModel) SetItems(items ...ListItem) tea.Cmd] *)
Definition SetItems (m : ListModel) (items : list ListItem) : ListModel * Cmd :=
  let listItems :=
    fold_left (fun listItems item =>
                 listItems ++ [mkListItem (Name item) (Info item) (Action item)])
      items [] in
  let '(l, cmd) := list_SetItems tk listItems (list_ m) in
  (mkListModel (ptr m) l, cmd).

(** [func NewList(title string, items ...ListItem) *ListModel], allocated
    at [ptr]. *)
Definition NewList (ptr : nat) (title : string) (items : list ListItem) : ListModel :=
  let listItems :=
    if Nat.ltb 0 (length items)
    then fold_left (fun listItems item =>
                      listItems ++ [mkListItem (Name item) (Info item) (Action item)])
           items []
    else [] in
  mkListModel ptr (list_New tk title listItems).

End Widgets.

End components.

(** ** Package [ui] *)

Module ui.

Inductive state : Type :=
| stateMenu
| stateLoading
| stateFailure
| stateDevice.

(** [sshclient.TerminalConfig], the fields [sshDevice] sets. *)
Record TerminalConfig : Type := mkTerminalConfig {
  Term : string;
  Height : Z;
  Weight : Z
}.

(** The calls of the front-end that leave the process, and the task it
    starts. *)
Inductive event : Type :=
| DialEv (network addr : string) (config : ClientConfig)
| TerminalEv (c : Client) (config : TerminalConfig)
| CloseEv (c : Client)
| DevicesEv
| GoFetchDevices.

(** What the outside answers: [sshclient.Dial], [Start] of a remote
    terminal, [Close] of a client, and [Devices] of the Tailscale
    service. *)
Record Env : Type := mkEnv {
  sshclient_Dial : string → string → ClientConfig → error + Client;
  Terminal_Start : Client → TerminalConfig → option error;
  sshclient_Close : Client → option error;
  ts_Devices : list Device * option error
}.

Section Model.

Variable tk : Toolkit.
Variable env : Env.

Record mainModel : Type := mkMainModel {
  loading : spinner_Model tk;
  deviceList : components.ListModel tk;
  mainMenu : components.ListModel tk;
  state_ : state;
  err : option error;
  ts : nat
}.

Definition set_state (s : state) (m : mainModel) : mainModel :=
  mkMainModel (loading m) (deviceList m) (mainMenu m) s (err m) (ts m).

Definition set_err (e : option error) (m : mainModel) : mainModel :=
  mkMainModel (loading m) (deviceList m) (mainMenu m) (state_ m) e (ts m).

Definition set_mainMenu (l : components.ListModel tk) (m : mainModel) : mainModel :=
  mkMainModel (loading m) (deviceList m) l (state_ m) (err m) (ts m).

Definition set_deviceList (l : components.ListModel tk) (m : mainModel) : mainModel :=
  mkMainModel (loading m) l (mainMenu m) (state_ m) (err m) (ts m).

Definition set_loading (l : spinner_Model tk) (m : mainModel) : mainModel :=
  mkMainModel l (deviceList m) (mainMenu m) (state_ m) (err m) (ts m).

(** [func (m *mainModel) Init() tea.Cmd] *)
Definition Init (m : mainModel) : Cmd := Batch [spinner_Tick tk (loading m)].

(** [func (m *mainModel) handleKeyPress(msg tea.KeyMsg)] *)
Definition handleKeyPress (m : mainModel) (keypress : string) : mainModel * Cmd :=
  if String.eqb keypress "ctrl+c" || String.eqb keypress "q"
  then (m, Quit)
  else
    match state_ m with
    | stateMenu =>
        let '(l, cmd) := components.Update tk (mainMenu m) (KeyMsg keypress) in
        (set_mainMenu l m, cmd)
    | stateDevice =>
        let '(l, cmd) := components.Update tk (deviceList m) (KeyMsg keypress) in
        (set_deviceList l m, cmd)
    | _ => (m, CmdNil)
    end.

(** [func (m *mainModel) handleWindow(msg tea.WindowSizeMsg)] *)
Definition handleWindow (m : mainModel) (Width Height : Z) : mainModel * Cmd :=
  let '(l, cmd) := components.Update tk (deviceList m) (WindowSizeMsg Width Height) in
  (set_deviceList l m, cmd).

(** [func (m *mainModel) handleTick(msg spinner.TickMsg)] *)
Definition handleTick (m : mainModel) (id : nat) : mainModel * Cmd :=
  let '(l, cmd) := spinner_Update tk (loading m) (TickMsg id) in
  (set_loading l m, cmd).

(** The two loops of [handleResult]: one item for every occurrence of
    the tag ["tag:e2e"] on every device, in order. *)
Definition tagged_items (devices : list Device) : list ListItem :=
  fold_left
    (fun listItems device =>
       fold_left
         (fun listItems tag =>
            if String.eqb tag "tag:e2e"
            then listItems
                 ++ [mkListItem (Hostname device) (Device_User device) tssh.ActionDeviceSSH]
            else listItems)
         (Tags device) listItems)
    devices [].

(** [func (m *mainModel) handleResult(result Result[[]tailscale.Device])] *)
Definition handleResult (m : mainModel) (result : Result) : mainModel * Cmd :=
  match Error result with
  | Some e => (set_err (Some e) (set_state stateFailure m), CmdNil)
  | None =>
      let listItems := tagged_items (Success result) in
      let '(l, cmd) := components.SetItems tk (deviceList m) listItems in
      (set_state stateDevice (set_deviceList l m), cmd)
  end.

(** [func (m *mainModel) handleDefault(msg tea.Msg)] *)
Definition handleDefault (m : mainModel) (msg : Msg) : mainModel * Cmd :=
  match state_ m with
  | stateMenu =>
      let '(l, cmd) := components.Update tk (mainMenu m) msg in
      (set_mainMenu l m, cmd)
  | stateDevice =>
      let '(l, cmd) := components.Update tk (deviceList m) msg in
      (set_deviceList l m, cmd)
  | stateLoading =>
      let '(l, cmd) := spinner_Update tk (loading m) msg in
      (set_loading l m, cmd)
  | stateFailure => (m, CmdNil)
  end.

(** [func (m *mainModel) sshDevice(hostname string) error]: the error
    returned and the calls made. *)
Definition sshDevice (hostname : string) : option error * list event :=
  let config := mkClientConfig "ubuntu" InsecureIgnoreHostKey [] "" in
  match sshclient_Dial env "tcp" (hostname +:+ ":22") config with
  | inl e => (Some e, [DialEv "tcp" (hostname +:+ ":22") config])
  | inr client =>
      let termConfig := mkTerminalConfig "xterm" 40 80 in
      (Terminal_Start env client termConfig,
       [DialEv "tcp" (hostname +:+ ":22") config;
        TerminalEv client termConfig;
        CloseEv client])
  end.

(** [func (m *mainModel) handleAction(item components.ListItem)].  The
    call [m.Update(nil)] takes the default case of [Update], which is
    [handleDefault]; its command is dropped. *)
Definition handleAction (m : mainModel) (item : ListItem)
  : mainModel * Cmd * list event :=
  match Action item with
  | tssh.ActionSSH => (set_state stateLoading m, CmdNil, [GoFetchDevices])
  | tssh.ActionDeviceSSH =>
      let m := set_state stateLoading m in
      let '(e, evs) := sshDevice (Name item) in
      match e with
      | Some e => (set_state stateFailure (set_err (Some e) m), CmdNil, evs)
      | None =>
          let m := set_state stateMenu m in
          let '(m, _) := handleDefault m NilMsg in
          (m, CmdNil, evs)
      end
  | tssh.ActionNone => (m, CmdNil, [])
  end.

(** [func (m *mainModel) Update(msg tea.Msg)] *)
Definition Update (m : mainModel) (msg : Msg) : mainModel * Cmd * list event :=
  match msg with
  | WindowSizeMsg Width Height => (handleWindow m Width Height, [])
  | KeyMsg keypress => (handleKeyPress m keypress, [])
  | TickMsg id => (handleTick m id, [])
  | ResultMsg r => (handleResult m r, [])
  | ListItemMsg i => handleAction m i
  | _ => (handleDefault m msg, [])
  end.

(** [func (m mainModel) View() string]; [None] when [m.err.Error()] is
    called on a nil error. *)
Definition View (m : mainModel) : option string :=
  match state_ m with
  | stateMenu => Some (components.View tk (mainMenu m))
  | stateLoading =>
      Some (JoinHorizontal tk
              [spinner_View tk (loading m); textStyle tk " Fetching Devices..."])
  | stateDevice => Some (components.View tk (deviceList m))
  | stateFailure =>
      match err m with
      | Some e => Some (JoinHorizontal tk [textStyle tk ("Failure: " +:+ e)])
      | None => None
      end
  end.

(** [func (m *mainModel) fetchDevices()]: the call [m.ts.Devices()], then
    [m.Update] with its result. *)
Definition fetchDevices (m : mainModel) : mainModel * Cmd * list event :=
  let '(devices, e) := ts_Devices env in
  let '(r, evs) := Update m (ResultMsg (mkResult devices e)) in
  (r, DevicesEv :: evs).

(** The model [New] hands to [tea.NewProgram]; the two list models are
    allocated at addresses 0 and 1. *)
Definition New_model (ts : nat) : mainModel :=
  let mm :=
    components.NewList tk 0 "What do you want to do?"
      [mkListItem "SSH to Tailscale Device" "Jump on a device" tssh.ActionSSH] in
  mkMainModel (spinner_New tk) (components.NewList tk 1 "Devices" []) mm stateMenu None ts.

(** The model after a sequence of messages. *)
Fixpoint updates (m : mainModel) (msgs : list Msg) : mainModel :=
  match msgs with
  | [] => m
  | msg :: rest => updates (fst (fst (Update m msg))) rest
  end.

End Model.

End ui.

(** ** Concrete widgets and a concrete network *)
(** A toolkit whose list shows its items as they are given and selects
    the first one. *)
Definition plain_toolkit : Toolkit :=
  mkToolkit (list ListItem) nat
    (fun _ items => items)
    (fun l _ => (l, CmdNil))
    (fun _ _ l => l)
    (fun items _ => (items, CmdNil))
    (fun l => head l)
    (fun _ l => (l, WidgetCmd 0))
    (fun _ => "")
    0
    (fun s _ => (S s, WidgetCmd 1))
    (fun _ => WidgetCmd 1)
    (fun _ => "...")
    (4%Z, 2%Z)
    (fun s => s)
    (fun s => s)
    (fun l => List.fold_right String.append "" l).

(** A network on which only ["build-1:22"] answers, and a Tailscale
    service with three devices. *)
Definition plain_ui_env : ui.Env :=
  ui.mkEnv
    (fun _ addr _ => if String.eqb addr "build-1:22" then inr 5 else inl "no route to host")
    (fun _ _ => None)
    (fun _ => None)
    ([mkDevice "build-1" "ci@example.com" ["tag:e2e"; "tag:linux"];
      mkDevice "laptop" "alice@example.com" ["tag:dev"];
      mkDevice "build-2" "ci@example.com" ["tag:linux"; "tag:e2e"; "tag:e2e"]],
     None).

(** The item [handleResult] makes of a device. *)
Definition device_item (d : Device) : ListItem :=
  mkListItem (Hostname d) (Device_User d) tssh.ActionDeviceSSH.

(** What [View] relies on: a model showing a failure holds its error. *)
Definition failure_has_error {tk : Toolkit} (m : ui.mainModel tk) : Prop :=
  ui.state_ tk m = ui.stateFailure → ui.err tk m ≠ None.

(** * Properties *)

(** ** Running computations *)

Lemma bind_events {A B : Type} (c : M A) (k : A → M B) (w : World) :
  out_events (bind c k w) =
    out_events (c w) ++
      match out_status (c w) with
      | Returned a => out_events (k a (out_world (c w)))
      | _ => []
      end.
Proof. unfold bind. destruct (out_status (c w)); simpl; by rewrite ?app_nil_r. Qed.

Lemma bind_contexts {A B : Type} (c : M A) (k : A → M B) (w : World) :
  contexts (out_world (bind c k w)) =
    match out_status (c w) with
    | Returned a => contexts (out_world (k a (out_world (c w))))
    | _ => contexts (out_world (c w))
    end.
Proof. unfold bind. by destruct (out_status (c w)). Qed.

(** ** Closing a wrapped connection *)

Section CloseFacts.

Variable env : Env.

Lemma cleanup_outcome (ctx : Context) (conn : Conn) (w0 : World) :
  ∃ c, out_status (connCallback env ctx conn w0) = Returned c
       ∧ sshConn_Conn c = conn
       ∧ ∀ w, cleanupFunc c w = mkOutcome (Returned tt) w (cleanup_events ctx w).
Proof.
  eexists. split; [reflexivity|]. split; [reflexivity|].
  intros w. cbn. unfold cleanup_events, stored_client, context_of.
  unfold bind, ctx_Value. cbn.
  destruct (ctx_values (default empty_context (contexts w !! ctx)) !! sshContextSSHClient)
    as [[s|[c|]|n]|]; reflexivity.
Qed.

Lemma Close_outcome (conn : Conn) (f : M unit) (w : World) :
  Close env (mkSshConn conn f) w =
    match out_status (f w) with
    | Returned _ =>
        mkOutcome (Returned (Conn_Close env conn)) (out_world (f w))
          (out_events (f w) ++ [EConnClose conn])
    | Panicked => mkOutcome Panicked (out_world (f w)) (out_events (f w))
    | Parked => mkOutcome Parked (out_world (f w)) (out_events (f w))
    end.
Proof.
  unfold Close, bind. cbn. destruct (out_status (f w)); reflexivity.
Qed.

End CloseFacts.

(** C1. Closing a wrapped connection runs its cleanup function once,
    first, and then closes the underlying transport: whatever the cleanup
    function is, the events of [Close] are those of one run of the cleanup
    followed by the transport's [Close].  For the connection built by
    [connCallback], the cleanup closes the outbound client the context
    holds at that moment, and does nothing when it holds none; in both
    cases [Close] returns, without a fault. *)
Theorem Close_cleanup_once_before_transport (env : Env) :
  (∀ (conn : Conn) (f : M unit) (w : World) (u : unit),
      out_status (f w) = Returned u →
      Close env (mkSshConn conn f) w =
        mkOutcome (Returned (Conn_Close env conn)) (out_world (f w))
          (out_events (f w) ++ [EConnClose conn]))
  ∧ (∀ (ctx : Context) (conn : Conn) (w0 : World),
      ∃ c, out_status (connCallback env ctx conn w0) = Returned c
           ∧ ∀ w, Close env c w =
                  mkOutcome (Returned (Conn_Close env conn)) w
                    (match stored_client ctx w with
                     | Some cl => [EClientClose cl]
                     | None => []
                     end ++ [EConnClose conn])).
Proof.
  split.
  - intros conn f w u Hf. rewrite Close_outcome, Hf. reflexivity.
  - intros ctx conn w0.
    destruct (cleanup_outcome env ctx conn w0) as (c & Hc & Hconn & Hclean).
    exists c. split; [exact Hc|]. intros w.
    destruct c as [conn' f]. cbn in Hconn, Hclean. subst conn'.
    rewrite Close_outcome, Hclean. reflexivity.
Qed.

Lemma Close_cleanup_once_before_transport_witness :
  Close sample_env (mkSshConn 3 (emit (EClientClose 7)))
    (sample_world sample_context 0 []) =
  mkOutcome (Returned None) (sample_world sample_context 0 [])
    [EClientClose 7; EConnClose 3].
Proof.
  exact (proj1 (Close_cleanup_once_before_transport sample_env) 3
           (emit (EClientClose 7)) (sample_world sample_context 0 []) tt eq_refl).
Defined.

(** C10. [Close] of the connection built by [connCallback] returns what
    closing the underlying transport returned, whatever closing the
    outbound client answered; the error stream is left as it was. *)
Theorem Close_returns_transport_result (env : Env) (ctx : Context) (conn : Conn)
  (w0 : World) :
  ∃ c, out_status (connCallback env ctx conn w0) = Returned c
       ∧ ∀ w, out_status (Close env c w) = Returned (Conn_Close env conn)
              ∧ errorChan (out_world (Close env c w)) = errorChan w
              ∧ errors_read (out_world (Close env c w)) = errors_read w
              ∧ errors_reader (out_world (Close env c w)) = errors_reader w.
Proof.
  destruct (cleanup_outcome env ctx conn w0) as (c & Hc & Hconn & Hclean).
  exists c. split; [exact Hc|]. intros w.
  destruct c as [conn' f]. cbn in Hconn, Hclean. subst conn'.
  rewrite Close_outcome, Hclean. cbn. done.
Qed.

(** C9. [New] always returns a proxy and a nil error. *)
Theorem New_never_fails (env : Env) (version localAddress hostname hostKeyDir : string)
  (shutdownC : nat) (idleTimeout maxTimeout : Duration) :
  ∃ p, New env version localAddress hostname hostKeyDir shutdownC idleTimeout maxTimeout
       = (Some p, None).
Proof. eexists. reflexivity. Qed.

Lemma opens_app (a b : list event) : opens (a ++ b) = opens a ++ opens b.
Proof. apply List.filter_app. Qed.

Section HandlerFacts.
Variable env : Env.

Lemma send_error_events (msg : error) (w : World) : out_events (send_error msg w) = [].
Proof. unfold send_error. destruct (chan_send _ _ _); reflexivity. Qed.

Lemma forward_no_open (ch : Channel) (req : Request) (w : World) :
  opens (out_events (forwardChannelRequest env ch req w)) = [].
Proof.
  unfold forwardChannelRequest, Channel_SendRequest, Request_Reply.
  rewrite !bind_events. cbn.
  destruct (Channel_peer env ch (ReqType req) (WantReply req) (Payload req)) as [e|r]; cbn.
  - reflexivity.
  - destruct (WantReply req); cbn.
    + destruct (Request_ack env req (reply_success r)); reflexivity.
    + reflexivity.
Qed.

Lemma select_turn_no_open (l r : Channel) (c : select_case) (w : World) :
  opens (out_events (select_turn env l r c w)) = [].
Proof.
  destruct c as [[req|]|[req|]|]; cbn; try reflexivity.
  all: rewrite bind_events, opens_app, forward_no_open; cbn.
  all: destruct (out_status (forwardChannelRequest env _ req w)) as [[e|]| |]; cbn;
    try reflexivity.
  all: rewrite bind_events, send_error_events; cbn.
  all: by destruct (out_status (send_error _ _)).
Qed.

Lemma select_loop_no_open (l r : Channel) (cases : list select_case) (w : World) :
  opens (out_events (select_loop env l r cases w)) = [].
Proof.
  revert w. induction cases as [|c rest IH]; intros w; [reflexivity|].
  cbn [select_loop]. rewrite bind_events. cbn.
  rewrite bind_events, opens_app, select_turn_no_open. cbn.
  destruct (out_status (select_turn env l r c (set_selects rest w))) as [[|]| |];
    cbn; auto.
Qed.

Lemma proxyChannel_no_open (l r : Channel) (lr rr : Requests) (conn : nat)
  (ctx : Context) (w : World) :
  opens (out_events (proxyChannel env l r lr rr conn ctx w)) = [].
Proof.
  unfold proxyChannel, proxyStreams, proxyStderrStreams, proxyChannelStreams.
  rewrite !bind_events. cbn. apply select_loop_no_open.
Qed.

Lemma defer_events {A : Type} (d : M unit) (body : M A) (w : World) :
  out_events (defer d body w) =
    out_events (body w) ++
      match out_status (body w) with
      | Parked => []
      | _ => out_events (d (out_world (body w)))
      end.
Proof.
  unfold defer. destruct (out_status (body w)); cbn; by rewrite ?app_nil_r.
Qed.

Lemma deferred_close_no_open {A : Type} (st : status A) (ch : Channel) (w : World) :
  opens match st with
        | Parked => []
        | _ => out_events (Channel_Close_call ch w)
        end = [].
Proof. by destruct st. Qed.

Lemma accepted_type_test (t : string) :
  negb (String.eqb t "session") && negb (String.eqb t "direct-tcpip") = false
  ↔ t = "session" ∨ t = "direct-tcpip".
Proof.
  rewrite andb_false_iff, !negb_false_iff, !String.eqb_eq. reflexivity.
Qed.

Lemma channelHandler_mirror (srv : Server) (conn : nat) (nc : NewChannel)
  (ctx : Context) (w : World) (cl : Client) (lc : Channel) (lr : Requests) :
  ChannelType nc = "session" ∨ ChannelType nc = "direct-tcpip" →
  NewChannel_Accept env nc = inr (lc, lr) →
  stored_client ctx w = Some cl →
  opens (out_events (channelHandler env srv conn nc ctx w))
  = [EOpenChannel cl (ChannelType nc) (ExtraData nc)].
Proof.
  intros Hty Hacc Hcl. unfold channelHandler.
  apply accepted_type_test in Hty. rewrite Hty, Hacc.
  rewrite bind_events. cbn. rewrite defer_events, opens_app.
  rewrite deferred_close_no_open, app_nil_r, bind_events. cbn.
  unfold stored_client, context_of in Hcl.
  destruct (ctx_values (default empty_context (contexts w !! ctx)) !! sshContextSSHClient)
    as [[s|[c|]|n]|]; try discriminate.
  injection Hcl as ->. cbn. f_equal.
  change (List.filter is_open) with opens.
  destruct (Client_OpenChannel env cl (ChannelType nc) (ExtraData nc)) as [e|[rc rr]]; cbn.
  - by rewrite send_error_events.
  - by rewrite defer_events, opens_app, proxyChannel_no_open, deferred_close_no_open.
Qed.
End HandlerFacts.

(** ** The channel acceptor *)

(** C2. An inbound channel-open request of type ["session"] or
    ["direct-tcpip"] that is accepted, on a connection whose context
    holds an outbound client, makes the handler open exactly one channel
    on that client, with the type and the extra data of the request. *)
Theorem accepted_channel_mirrored_once (env : Env) (srv : Server) (conn : nat)
  (newChan : NewChannel) (ctx : Context) (w : World) (client : Client)
  (localChan : Channel) (localChanReqs : Requests) :
  ChannelType newChan = "session" ∨ ChannelType newChan = "direct-tcpip" →
  NewChannel_Accept env newChan = inr (localChan, localChanReqs) →
  stored_client ctx w = Some client →
  opens (out_events (channelHandler env srv conn newChan ctx w))
  = [EOpenChannel client (ChannelType newChan) (ExtraData newChan)].
Proof. apply channelHandler_mirror. Qed.

Lemma accepted_channel_mirrored_once_witness :
  opens (out_events
           (channelHandler sample_env sample_server 1
              (mkNewChannel 0 "direct-tcpip" [Byte.x0a; Byte.x00]) 0
              (sample_world authenticated_context 1 [RecvDone])))
  = [EOpenChannel 7 "direct-tcpip" [Byte.x0a; Byte.x00]].
Proof.
  apply (accepted_channel_mirrored_once sample_env sample_server 1
           (mkNewChannel 0 "direct-tcpip" [Byte.x0a; Byte.x00]) 0
           (sample_world authenticated_context 1 [RecvDone]) 7 10 11).
  - right. reflexivity.
  - reflexivity.
  - vm_compute. reflexivity.
Defined.

Lemma rejected_type_test (t : string) :
  t ≠ "session" → t ≠ "direct-tcpip" →
  negb (String.eqb t "session") && negb (String.eqb t "direct-tcpip") = true.
Proof.
  intros H1 H2. apply not_false_iff_true. rewrite accepted_type_test. tauto.
Qed.

Lemma send_error_contexts (msg : error) (w : World) :
  contexts (out_world (send_error msg w)) = contexts w.
Proof. unfold send_error. destruct (chan_send _ _ _); reflexivity. Qed.

Lemma send_error_no_panic (msg : error) (w : World) :
  out_status (send_error msg w) ≠ Panicked.
Proof. unfold send_error. destruct (chan_send _ _ _); discriminate. Qed.

(** C8. A channel-open request of any other type is answered by one
    [Reject] with the reason [UnknownChannelType] and a message naming the
    requested type; the handler does nothing else to the outside (no
    outbound channel is opened, nothing is closed), does not fault, and
    leaves the connection's context as it was, so that a later request of
    an accepted type on the same connection is still mirrored on the
    stored outbound client. *)
Theorem unknown_channel_type_rejected (env : Env) (srv : Server) (conn : nat)
  (newChan : NewChannel) (ctx : Context) (w : World) :
  ChannelType newChan ≠ "session" →
  ChannelType newChan ≠ "direct-tcpip" →
  let o := channelHandler env srv conn newChan ctx w in
  out_events o =
    [EReject newChan UnknownChannelType
       ("channel type " +:+ ChannelType newChan +:+ " is not supported")]
  ∧ out_status o ≠ Panicked
  ∧ contexts (out_world o) = contexts w
  ∧ ∀ (next : NewChannel) (client : Client) (localChan : Channel)
      (localChanReqs : Requests),
      ChannelType next = "session" ∨ ChannelType next = "direct-tcpip" →
      NewChannel_Accept env next = inr (localChan, localChanReqs) →
      stored_client ctx w = Some client →
      opens (out_events (channelHandler env srv conn next ctx (out_world o)))
      = [EOpenChannel client (ChannelType next) (ExtraData next)].
Proof.
  intros H1 H2 o.
  assert (Hctx : contexts (out_world o) = contexts w).
  { subst o. unfold channelHandler. rewrite rejected_type_test by assumption.
    rewrite bind_contexts. cbn.
    destruct (NewChannel_Reject _ _ _ _); [apply send_error_contexts | reflexivity]. }
  split; [|split; [|split]].
  - subst o. unfold channelHandler. rewrite rejected_type_test by assumption.
    rewrite bind_events. cbn.
    destruct (NewChannel_Reject _ _ _ _); [by rewrite send_error_events | reflexivity].
  - subst o. unfold channelHandler. rewrite rejected_type_test by assumption.
    unfold bind. cbn.
    destruct (NewChannel_Reject _ _ _ _) as [e|]; cbn; [|discriminate].
    pose proof (send_error_no_panic ("error rejecting SSH channel: " +:+ e) w) as Hp.
    destruct (out_status (send_error _ w)); done.
  - exact Hctx.
  - intros next client lc lr Hty Hacc Hcl.
    apply (channelHandler_mirror env srv conn next ctx _ client lc lr Hty Hacc).
    unfold stored_client, context_of in *. by rewrite Hctx.
Qed.

Lemma unknown_channel_type_rejected_witness :
  out_events
    (channelHandler sample_env sample_server 1 (mkNewChannel 0 "x11" []) 0
       (sample_world authenticated_context 0 []))
  = [EReject (mkNewChannel 0 "x11" []) UnknownChannelType
       "channel type x11 is not supported"].
Proof.
  apply (unknown_channel_type_rejected sample_env sample_server 1
           (mkNewChannel 0 "x11" []) 0 (sample_world authenticated_context 0 [])).
  - discriminate.
  - discriminate.
Defined.

(** ** The error stream *)

(** C3, as stated, fails: with nobody receiving from [Errors()], a task
    that reports an error stays parked on the send.  Here the proxy is the
    one [New] returns and the inbound channel cannot be accepted. *)
Lemma error_report_parks_without_reader :
  ∃ p, New sample_env "1.0" ":2222" "gateway" "/etc/tssh" 0 0%Z 0%Z = (Some p, None)
       ∧ out_status (send_error "failed to accept session channel: EOF"
                       (start_world p 0 [])) = Parked
       ∧ out_status (channelHandler failing_accept_env (SSHProxy_Server p) 1
                       (mkNewChannel 0 "session" []) 0 (start_world p 0 [])) = Parked
       ∧ ¬ error_report_never_waits.
Proof.
  eexists. split; [reflexivity|]. split; [reflexivity|]. split; [reflexivity|].
  intros H.
  specialize (H sample_env "1.0" ":2222" "gateway" "/etc/tssh" 0 0%Z 0%Z _
                (start_world (mkSSHProxy sample_server "gateway" 0 None (make_chan 0)) 0 [])
                "failed to accept session channel: EOF" eq_refl eq_refl).
  discriminate H.
Qed.

(** C3, amended. The error channel [New] makes has no buffer.  Reporting
    an error on it is a rendezvous: with no reader of [Errors()] receiving,
    the reporting task parks and the world is unchanged (the error is not
    dropped); with a reader receiving, the report completes, the reader
    gets exactly that error, and the channel is as before. *)
Theorem error_report_is_rendezvous (env : Env)
  (version localAddress hostname hostKeyDir : string) (shutdownC : nat)
  (idleTimeout maxTimeout : Duration) (p : SSHProxy) (w : World) (msg : error) :
  fst (New env version localAddress hostname hostKeyDir shutdownC idleTimeout maxTimeout)
  = Some p →
  errorChan w = Errors p →
  chan_cap (Errors p) = 0
  ∧ (errors_reader w = 0 →
     out_status (send_error msg w) = Parked ∧ out_world (send_error msg w) = w)
  ∧ (0 < errors_reader w →
     out_status (send_error msg w) = Returned tt
     ∧ errors_read (out_world (send_error msg w)) = errors_read w ++ [msg]
     ∧ errors_reader (out_world (send_error msg w)) = pred (errors_reader w)
     ∧ errorChan (out_world (send_error msg w)) = errorChan w).
Proof.
  intros Hnew Hch. cbn in Hnew. injection Hnew as <-. cbn in Hch.
  split; [reflexivity|]. unfold send_error, chan_send. rewrite Hch. cbn.
  split.
  - intros ->. cbn. done.
  - intros Hr. rewrite bool_decide_eq_true_2 by exact Hr. cbn. done.
Qed.

Lemma error_report_is_rendezvous_witness :
  out_status (send_error "boom" (sample_world sample_context 0 [])) = Parked
  ∧ out_status (send_error "boom" (sample_world sample_context 1 [])) = Returned tt.
Proof.
  split.
  - apply (error_report_is_rendezvous sample_env "1.0" ":2222" "gateway" "/etc/tssh" 0
             0%Z 0%Z
             (mkSSHProxy
                (mkServer ":2222" 0%Z 0%Z "SSH-2.0-tssh_1.0_linux"
                   (Some handler_proxyAuthCallback) (Some handler_connCallback)
                   {[ "default" := handler_channelHandler ]})
                "gateway" 0 None (make_chan 0))
             (sample_world sample_context 0 []) "boom" eq_refl eq_refl).
    reflexivity.
  - apply (error_report_is_rendezvous sample_env "1.0" ":2222" "gateway" "/etc/tssh" 0
             0%Z 0%Z
             (mkSSHProxy
                (mkServer ":2222" 0%Z 0%Z "SSH-2.0-tssh_1.0_linux"
                   (Some handler_proxyAuthCallback) (Some handler_connCallback)
                   {[ "default" := handler_channelHandler ]})
                "gateway" 0 None (make_chan 0))
             (sample_world sample_context 1 []) "boom" eq_refl eq_refl).
    cbn. lia.
Defined.

(** ** Authentication and the outbound dial *)

Lemma dialDestination_without_string (env : Env) (ctx : Context) (w : World) :
  (∀ s, ctx_values (context_of ctx w) !! tailscaleDevice ≠ Some (VString s)) →
  dialDestination env ctx w = mkOutcome (Returned (None, Some "failed to connect to server")) w [].
Proof.
  intros H. unfold dialDestination, bind, ctx_Value. cbn.
  unfold context_of in H.
  destruct (ctx_values (default empty_context (contexts w !! ctx)) !! tailscaleDevice)
    as [[s|c|n]|]; try reflexivity.
  by destruct (H s).
Qed.

Lemma dialDestination_with_string (env : Env) (ctx : Context) (w : World) (addr : string) :
  ctx_values (context_of ctx w) !! tailscaleDevice = Some (VString addr) →
  dialDestination env ctx w =
    mkOutcome
      match Dial env "tcp" addr (dial_config (context_of ctx w)) with
      | inl err => Returned (None, Some (err +:+ " failed to connect to destination SSH server"))
      | inr client => Returned (Some client, None)
      end
      w [EDial "tcp" addr (dial_config (context_of ctx w))].
Proof.
  intros H. unfold dialDestination, bind, ctx_Value. cbn.
  unfold context_of in *. rewrite H. cbn. unfold dial_config.
  by destruct (Dial env "tcp" addr _).
Qed.

(** The part of C5 the code keeps: with no string under ["tailscaleDevice"]
    authentication is refused and nothing is dialed. *)
Lemma proxyAuthCallback_without_string (env : Env) (ctx : Context) (key : nat) (w : World) :
  (∀ s, ctx_values (context_of ctx w) !! tailscaleDevice ≠ Some (VString s)) →
  proxyAuthCallback env ctx key w = mkOutcome (Returned false) w [].
Proof.
  intros H. unfold proxyAuthCallback, bind.
  rewrite (dialDestination_without_string env ctx w H). reflexivity.
Qed.

(** A successful authentication leaves a non-nil outbound client in the
    context, the one the dial returned: the premise of C2 is what every
    authenticated connection starts from. *)
Lemma proxyAuthCallback_stores_client (env : Env) (ctx : Context) (key : nat) (w : World) :
  out_status (proxyAuthCallback env ctx key w) = Returned true →
  ∃ c, stored_client ctx (out_world (proxyAuthCallback env ctx key w)) = Some c.
Proof.
  destruct (ctx_values (context_of ctx w) !! tailscaleDevice) as [[addr|c|n]|] eqn:E.
  2-4: rewrite proxyAuthCallback_without_string by (intros s; rewrite E; discriminate);
       discriminate.
  unfold proxyAuthCallback, bind.
  rewrite (dialDestination_with_string env ctx w addr E).
  destruct (Dial env "tcp" addr _) as [e|c]; cbn; [discriminate|].
  intros _. exists c. unfold stored_client, context_of. cbn.
  rewrite lookup_insert_eq. cbn. by rewrite lookup_insert_eq.
Qed.

(** C5 at the failing input. [connCallback] stores the empty string as
    the destination of every connection; the authentication that follows
    does not stop there: it dials the empty address, and its answer is
    whatever that dial gives. *)
Theorem empty_destination_is_dialed (env : Env) (ctx : Context) (conn : Conn)
  (key : nat) (w0 : World) :
  let w1 := out_world (connCallback env ctx conn w0) in
  ctx_values (context_of ctx w1) !! tailscaleDevice = Some (VString "")
  ∧ out_events (proxyAuthCallback env ctx key w1)
    = [EDial "tcp" "" (dial_config (context_of ctx w0))]
  ∧ out_status (proxyAuthCallback env ctx key w1)
    = Returned match Dial env "tcp" "" (dial_config (context_of ctx w0)) with
               | inl _ => false
               | inr _ => true
               end.
Proof.
  intros w1.
  assert (Hv : ctx_values (context_of ctx w1) !! tailscaleDevice = Some (VString "")).
  { subst w1. unfold context_of. cbn. rewrite lookup_insert_eq. cbn.
    apply lookup_insert_eq. }
  assert (Hd : dial_config (context_of ctx w1) = dial_config (context_of ctx w0)).
  { subst w1. unfold context_of. cbn. rewrite lookup_insert_eq. reflexivity. }
  split; [exact Hv|].
  unfold proxyAuthCallback, bind.
  rewrite (dialDestination_with_string env ctx w1 "" Hv), Hd. cbn.
  by destruct (Dial env "tcp" "" _).
Qed.

(** C7, as stated, fails: the client version of the outbound dial is not
    the version the inbound client announced. *)
Lemma dial_client_version_differs :
  ∃ cfg,
    out_events (dialDestination sample_env 0 (sample_world sample_context 0 []))
    = [EDial "tcp" "10.0.0.5:22" cfg]
    ∧ ClientVersion cfg = "SSH-2.0-tssh_1.0_linux"
    ∧ ctx_ClientVersion (context_of 0 (sample_world sample_context 0 []))
      = "SSH-2.0-OpenSSH_9.6"
    ∧ ¬ dial_uses_user_and_client_version.
Proof.
  eexists. split; [reflexivity|]. split; [reflexivity|]. split; [reflexivity|].
  intros H.
  destruct (H sample_env 0 (sample_world sample_context 0 []) "10.0.0.5:22" eq_refl)
    as (cfg & Hev & _ & Hver).
  injection Hev as <-. discriminate Hver.
Qed.

(** C7, amended. When the context holds a destination, the outbound
    connection is dialed once, over tcp, to that destination, with the
    user name of the inbound connection and with the client version set to
    the server version of the inbound connection (what the proxy itself
    announced), not to the version the inbound client announced. *)
Theorem dial_uses_user_and_server_version (env : Env) (ctx : Context) (w : World)
  (addr : string) :
  ctx_values (context_of ctx w) !! tailscaleDevice = Some (VString addr) →
  ∃ cfg,
    out_events (dialDestination env ctx w) = [EDial "tcp" addr cfg]
    ∧ User cfg = ctx_User (context_of ctx w)
    ∧ ClientVersion cfg = ctx_ServerVersion (context_of ctx w).
Proof.
  intros H. exists (dial_config (context_of ctx w)).
  rewrite (dialDestination_with_string env ctx w addr H). done.
Qed.

Lemma dial_uses_user_and_server_version_witness :
  ∃ cfg,
    out_events (dialDestination sample_env 0 (sample_world sample_context 0 []))
    = [EDial "tcp" "10.0.0.5:22" cfg]
    ∧ User cfg = "alice"
    ∧ ClientVersion cfg = "SSH-2.0-tssh_1.0_linux".
Proof.
  apply (dial_uses_user_and_server_version sample_env 0
           (sample_world sample_context 0 []) "10.0.0.5:22").
  vm_compute. reflexivity.
Defined.

(** ** The request forwarder *)

(** C6. A request that was sent to the peer and asked for a reply is
    answered to its sender, once, with exactly what the peer replied: the
    success flag of the peer's answer, and no payload, an answer to a
    channel request having none ([Reply] is called with the flag and a nil
    payload).  A request that did not ask for a reply is sent on and
    nothing is sent back. *)
Theorem forwarded_reply_relays_flag (env : Env) (sshChan : Channel) (req : Request)
  (w : World) (r : PeerReply) :
  Channel_peer env sshChan (ReqType req) (WantReply req) (Payload req) = inr r →
  out_events (forwardChannelRequest env sshChan req w) =
    ESendRequest sshChan (ReqType req) (WantReply req) (Payload req)
    :: (if WantReply req then [EReplySent req (reply_success r) []] else []).
Proof.
  intros H. unfold forwardChannelRequest, Channel_SendRequest, Request_Reply, bind.
  cbn. rewrite H. cbn.
  destruct (WantReply req); cbn; [|reflexivity].
  by destruct (Request_ack env req (reply_success r)).
Qed.

Lemma forwarded_reply_relays_flag_witness :
  out_events
    (forwardChannelRequest sample_env 20 (mkRequest 0 "pty-req" true [])
       (sample_world sample_context 0 []))
  = [ESendRequest 20 "pty-req" true [];
     EReplySent (mkRequest 0 "pty-req" true []) true []].
Proof.
  exact (forwarded_reply_relays_flag sample_env 20 (mkRequest 0 "pty-req" true [])
           (sample_world sample_context 0 []) (mkPeerReply true) eq_refl).
Defined.

(** ** The stream bridge *)

Lemma chan_send_enqueued {A : Type} (ch ch' : chan A) (v : A) :
  chan_send ch false v = Enqueued ch' →
  chan_cap ch' = chan_cap ch
  ∧ chan_buf ch' = chan_buf ch ++ [v]
  ∧ length (chan_buf ch) < chan_cap ch.
Proof.
  unfold chan_send. destruct (Nat.ltb_spec (length (chan_buf ch)) (chan_cap ch));
    [|discriminate].
  intros [= <-]. done.
Qed.

Lemma chan_send_room {A : Type} (ch : chan A) (v : A) :
  length (chan_buf ch) < chan_cap ch →
  chan_send ch false v = Enqueued (mkChan (chan_cap ch) (chan_buf ch ++ [v])).
Proof.
  intros H. unfold chan_send. apply Nat.ltb_lt in H. by rewrite H.
Qed.

Section BridgeFacts.

Variable env : Env.
Variables localChan remoteChan : Channel.

Lemma bridge_inv_start (w : World) : bridge_inv (bridge_start w).
Proof. unfold bridge_inv. cbn. split; [done|]. split; [lia|done]. Qed.

Lemma bridge_inv_step (b b' : bridge) (a : action) :
  bridge_inv b → step env localChan remoteChan b a = Some b' → bridge_inv b'.
Proof.
  intros (Hcap & Hlen & Hcl) Hstep. unfold bridge_inv.
  destruct a as [d err|d|d|c|]; cbn [step] in Hstep.
  - destruct d; cbn in Hstep.
    + destruct (b_remote_to_local b) eqn:E; try discriminate.
      destruct err; injection Hstep as <-; cbn; cbn in Hlen; done.
    + destruct (b_local_to_remote b) eqn:E; try discriminate.
      destruct err; injection Hstep as <-; cbn; cbn in Hlen; done.
  - destruct d; cbn in Hstep.
    + destruct (b_remote_to_local b) eqn:E; try discriminate.
      destruct (out_status (send_error msg (b_world b))); try discriminate.
      injection Hstep as <-; cbn; cbn in Hlen; done.
    + destruct (b_local_to_remote b) eqn:E; try discriminate.
      destruct (out_status (send_error msg (b_world b))); try discriminate.
      injection Hstep as <-; cbn; cbn in Hlen; done.
  - destruct d; cbn [step copy_of] in Hstep.
    + destruct (b_remote_to_local b) eqn:E; try discriminate.
      destruct (chan_send (b_done b) false ()) as [u|ch|] eqn:Es; try discriminate Hstep.
      apply chan_send_enqueued in Es as (Ec & Eb & _).
      injection Hstep as <-; cbn. rewrite Ec, Eb, length_app. cbn in *.
      split; [done|]. split; [lia|done].
    + destruct (b_local_to_remote b) eqn:E; try discriminate.
      destruct (chan_send (b_done b) false ()) as [u|ch|] eqn:Es; try discriminate Hstep.
      apply chan_send_enqueued in Es as (Ec & Eb & _).
      injection Hstep as <-; cbn. rewrite Ec, Eb, length_app. cbn in *.
      split; [done|]. split; [lia|done].
  - destruct (b_loop b) eqn:E; try discriminate.
    assert (Hnc : b_closed b = true → False) by (intros H; apply Hcl in H; congruence).
    destruct c as [req|req|]; cbn in Hstep.
    + injection Hstep as <-; cbn. done.
    + injection Hstep as <-; cbn. done.
    + unfold chan_recv in Hstep.
      destruct (chan_buf (b_done b)) as [|u rest] eqn:Eb; try discriminate.
      cbn in Hstep. injection Hstep as <-; cbn. cbn in Hlen.
      split; [done|]. split; [lia|done].
  - destruct (b_loop b) eqn:E; try discriminate.
    destruct (b_closed b); try discriminate.
    injection Hstep as <-; cbn. done.
Qed.

Lemma bridge_inv_run (acts : list action) (b b' : bridge) :
  bridge_inv b → run env localChan remoteChan b acts = Some b' → bridge_inv b'.
Proof.
  revert b. induction acts as [|a rest IH]; intros b Hinv Hrun; cbn in Hrun.
  - by injection Hrun as <-.
  - destruct (step env localChan remoteChan b a) as [b1|] eqn:E; [|discriminate].
    eapply IH; [|exact Hrun]. eapply bridge_inv_step; eauto.
Qed.

Lemma posting_never_parks (b : bridge) (d : copy_dir) :
  bridge_inv b → copy_of d b = Posting →
  is_Some (step env localChan remoteChan b (CopyPosts d)).
Proof.
  intros (Hcap & Hlen & _) Hpc. cbn [step]. rewrite Hpc.
  rewrite chan_send_room; [eauto|].
  rewrite Hcap. destruct d; cbn in Hpc; rewrite Hpc in Hlen; cbn in Hlen; lia.
Qed.

Lemma closed_stream_returns (b b' : bridge) (c : select_case) :
  c = RecvLocalReqs None ∨ c = RecvRemoteReqs None →
  step env localChan remoteChan b (LoopTurn c) = Some b' →
  b_loop b' = LoopReturned.
Proof.
  intros [-> | ->] Hstep; cbn in Hstep; destruct (b_loop b); try discriminate;
    by injection Hstep as <-.
Qed.

Lemma done_case_returns (b b' : bridge) :
  bridge_inv b →
  step env localChan remoteChan b (LoopTurn RecvDone) = Some b' →
  b_loop b' = LoopReturned
  ∧ (b_remote_to_local b = Finished ∨ b_local_to_remote b = Finished).
Proof.
  intros (Hcap & Hlen & _) Hstep. cbn in Hstep.
  destruct (b_loop b); try discriminate.
  unfold chan_recv in Hstep.
  destruct (chan_buf (b_done b)) as [|u rest] eqn:Eb; try discriminate.
  cbn in Hstep. injection Hstep as <-. cbn. split; [done|].
  cbn in Hlen.
  destruct (b_remote_to_local b), (b_local_to_remote b); cbn in Hlen; auto; lia.
Qed.

End BridgeFacts.

(** C4, as stated, fails.  One copy direction ends and posts, the loop
    takes that signal and returns, the handler closes the pair: the other
    direction is still copying.  And when a request stream is closed the
    loop returns, and the pair is closed, with no signal posted at all. *)
Lemma pair_closed_before_both_posted :
  (∃ b,
     run sample_env 10 20 (bridge_start (sample_world authenticated_context 0 []))
       [CopyReturns RemoteToLocal None; CopyPosts RemoteToLocal; LoopTurn RecvDone;
        HandlerCloses] = Some b
     ∧ b_closed b = true ∧ b_local_to_remote b = Copying)
  ∧ (∃ b,
     run sample_env 10 20 (bridge_start (sample_world authenticated_context 0 []))
       [LoopTurn (RecvLocalReqs None); HandlerCloses] = Some b
     ∧ b_closed b = true
     ∧ b_remote_to_local b = Copying ∧ b_local_to_remote b = Copying)
  ∧ ¬ closed_only_after_both_posted.
Proof.
  split; [eexists; split; [reflexivity|]; split; reflexivity|].
  split; [eexists; split; [reflexivity|]; split; [|split]; reflexivity|].
  intros H.
  destruct (H sample_env 10 20 (sample_world authenticated_context 0 [])
              [LoopTurn (RecvLocalReqs None); HandlerCloses] _ eq_refl eq_refl)
    as [Hr _].
  discriminate Hr.
Qed.

(** C4, amended. In every state a channel pair's bridge can reach: the
    completion channel has capacity 2 and a copy task that is about to
    post its completion signal can always do so; the pair is closed only
    after the request-forwarding loop has returned; the loop returns on
    the first completion signal it receives, at which point at least one
    primary copy direction has posted, and it returns as well when a
    request stream yields nil. *)
Theorem bridge_closes_after_loop_returns (env : Env) (localChan remoteChan : Channel)
  (w : World) (acts : list action) (b : bridge) :
  run env localChan remoteChan (bridge_start w) acts = Some b →
  chan_cap (b_done b) = 2
  ∧ (∀ d, copy_of d b = Posting →
          is_Some (step env localChan remoteChan b (CopyPosts d)))
  ∧ (b_closed b = true → b_loop b = LoopReturned)
  ∧ (∀ b', step env localChan remoteChan b (LoopTurn RecvDone) = Some b' →
           b_loop b' = LoopReturned
           ∧ (b_remote_to_local b = Finished ∨ b_local_to_remote b = Finished))
  ∧ (∀ c b', c = RecvLocalReqs None ∨ c = RecvRemoteReqs None →
             step env localChan remoteChan b (LoopTurn c) = Some b' →
             b_loop b' = LoopReturned).
Proof.
  intros Hrun.
  pose proof (bridge_inv_run env localChan remoteChan acts _ _
                (bridge_inv_start w) Hrun) as Hinv.
  split; [apply Hinv|]. split; [|split; [|split]].
  - intros d. by apply posting_never_parks.
  - apply Hinv.
  - intros b'. by apply done_case_returns.
  - intros c b'. apply closed_stream_returns.
Qed.

Lemma bridge_closes_after_loop_returns_witness :
  ∃ b,
    run sample_env 10 20 (bridge_start (sample_world authenticated_context 0 []))
      [CopyReturns RemoteToLocal None; CopyReturns LocalToRemote None;
       CopyPosts LocalToRemote] = Some b
    ∧ chan_cap (b_done b) = 2
    ∧ is_Some (step sample_env 10 20 b (CopyPosts RemoteToLocal)).
Proof.
  eexists. split; [reflexivity|].
  destruct (bridge_closes_after_loop_returns sample_env 10 20
              (sample_world authenticated_context 0 [])
              [CopyReturns RemoteToLocal None; CopyReturns LocalToRemote None;
               CopyPosts LocalToRemote] _ eq_refl) as (Hcap & Hpost & _).
  split; [exact Hcap|]. apply Hpost. reflexivity.
Defined.

(** * Further properties of package [sshproxy] *)

Lemma send_error_delivers (msg : error) (w : World) :
  0 < errors_reader w →
  send_error msg w = mkOutcome (Returned tt) (after_report msg w) [].
Proof.
  intros H. unfold send_error, chan_send. by rewrite bool_decide_eq_true_2.
Qed.

Lemma send_error_parks (msg : error) (w : World) :
  unread_errors w → send_error msg w = mkOutcome Parked w [].
Proof.
  intros [Hr Hc]. unfold send_error, chan_send. rewrite Hr, Hc. cbn.
  by destruct (length (chan_buf (errorChan w))).
Qed.

Lemma forward_outcome (env : Env) (sshChan : Channel) (req : Request) (w : World) :
  out_status (forwardChannelRequest env sshChan req w)
    = Returned (forward_result env sshChan req)
  ∧ out_world (forwardChannelRequest env sshChan req w) = w.
Proof.
  unfold forwardChannelRequest, forward_result, Channel_SendRequest, Request_Reply, bind.
  cbn. destruct (Channel_peer env sshChan _ _ _) as [e|r]; cbn; [done|].
  destruct (WantReply req); cbn; [|done].
  by destruct (Request_ack env req (reply_success r)).
Qed.

(** ** Authentication, continued *)

(** X1. Authentication succeeds exactly when the context holds a
    destination string and the dial to it succeeds; the client the dial
    returned is then the stored outbound client.  When it fails, for
    either reason, the world is left as it was: no client is stored. *)
Theorem proxyAuthCallback_outcome (env : Env) (ctx : Context) (key : nat) (w : World) :
  match ctx_values (context_of ctx w) !! tailscaleDevice with
  | Some (VString addr) =>
      out_events (proxyAuthCallback env ctx key w)
        = [EDial "tcp" addr (dial_config (context_of ctx w))]
      ∧ match Dial env "tcp" addr (dial_config (context_of ctx w)) with
        | inr c =>
            out_status (proxyAuthCallback env ctx key w) = Returned true
            ∧ stored_client ctx (out_world (proxyAuthCallback env ctx key w)) = Some c
        | inl _ =>
            out_status (proxyAuthCallback env ctx key w) = Returned false
            ∧ out_world (proxyAuthCallback env ctx key w) = w
        end
  | _ => proxyAuthCallback env ctx key w = mkOutcome (Returned false) w []
  end.
Proof.
  destruct (ctx_values (context_of ctx w) !! tailscaleDevice) as [[addr|c|n]|] eqn:E.
  2-4: apply proxyAuthCallback_without_string; intros s; rewrite E; discriminate.
  unfold proxyAuthCallback, bind.
  rewrite (dialDestination_with_string env ctx w addr E).
  destruct (Dial env "tcp" addr _) as [e|c]; cbn; [done|].
  split; [done|]. split; [done|].
  unfold stored_client, context_of. cbn.
  rewrite lookup_insert_eq. cbn. by rewrite lookup_insert_eq.
Qed.

Lemma proxyAuthCallback_world (env : Env) (ctx : Context) (key : nat) (w : World) :
  out_world (proxyAuthCallback env ctx key w) = w
  ∨ ∃ c, out_world (proxyAuthCallback env ctx key w)
         = out_world (ctx_SetValue ctx sshContextSSHClient (VClient c) w).
Proof.
  destruct (ctx_values (context_of ctx w) !! tailscaleDevice) as [[addr|c|n]|] eqn:E.
  2-4: left; rewrite proxyAuthCallback_without_string; [done|];
       intros s; rewrite E; discriminate.
  unfold proxyAuthCallback, bind.
  rewrite (dialDestination_with_string env ctx w addr E).
  destruct (Dial env "tcp" addr _) as [e|c]; cbn; [by left|].
  right. by exists (Some c).
Qed.

(** X2. The two callbacks write only their own key of their own context:
    [connCallback] the destination, [proxyAuthCallback] the client.  Every
    other key, the metadata, and every other connection's context are as
    before. *)
Theorem callbacks_write_one_key (env : Env) (ctx : Context) (conn : Conn) (key : nat)
  (w : World) (ctx' : Context) (k : string) :
  let w1 := out_world (connCallback env ctx conn w) in
  let w2 := out_world (proxyAuthCallback env ctx key w) in
  ((ctx' ≠ ctx ∨ k ≠ tailscaleDevice) →
   ctx_values (context_of ctx' w1) !! k = ctx_values (context_of ctx' w) !! k)
  ∧ ((ctx' ≠ ctx ∨ k ≠ sshContextSSHClient) →
     ctx_values (context_of ctx' w2) !! k = ctx_values (context_of ctx' w) !! k)
  ∧ dial_config (context_of ctx' w1) = dial_config (context_of ctx' w)
  ∧ dial_config (context_of ctx' w2) = dial_config (context_of ctx' w)
  ∧ ctx_ClientVersion (context_of ctx' w1) = ctx_ClientVersion (context_of ctx' w)
  ∧ ctx_ClientVersion (context_of ctx' w2) = ctx_ClientVersion (context_of ctx' w).
Proof.
  intros w1 w2.
  assert (Hset : ∀ key' v,
    let w' := out_world (ctx_SetValue ctx key' v w) in
    ((ctx' ≠ ctx ∨ k ≠ key') →
     ctx_values (context_of ctx' w') !! k = ctx_values (context_of ctx' w) !! k)
    ∧ dial_config (context_of ctx' w') = dial_config (context_of ctx' w)
    ∧ ctx_ClientVersion (context_of ctx' w') = ctx_ClientVersion (context_of ctx' w)).
  { intros key' v. cbn. unfold context_of. cbn.
    destruct (decide (ctx' = ctx)) as [->|Hne].
    - rewrite lookup_insert_eq. cbn. split; [|done].
      intros [H|H]; [done|]. by rewrite lookup_insert_ne.
    - rewrite lookup_insert_ne by done. done. }
  assert (H1 : w1 = out_world (ctx_SetValue ctx tailscaleDevice (VString "") w))
    by reflexivity.
  assert (H2 : w2 = w ∨ ∃ c, w2 = out_world (ctx_SetValue ctx sshContextSSHClient (VClient c) w))
    by apply proxyAuthCallback_world.
  rewrite H1. destruct (Hset tailscaleDevice (VString "")) as (Ha & Hb & Hc).
  destruct H2 as [-> | [c ->]].
  - done.
  - destruct (Hset sshContextSSHClient (VClient c)) as (Ha' & Hb' & Hc'). done.
Qed.

Lemma callbacks_write_one_key_witness :
  ctx_values (context_of 0
                (out_world (proxyAuthCallback sample_env 0 1
                              (sample_world sample_context 0 []))))
    !! tailscaleDevice
  = ctx_values (context_of 0 (sample_world sample_context 0 [])) !! tailscaleDevice.
Proof.
  apply (callbacks_write_one_key sample_env 0 3 1 (sample_world sample_context 0 []) 0
           tailscaleDevice).
  right. discriminate.
Defined.

(** X3. The life of one connection.  On a connection that holds no
    outbound client yet, authentication is run and then the wrapped
    connection is closed: the client the dial returned, if the dial
    succeeded, is closed, once, and then the transport; with no
    destination or a failed dial only the transport is closed. *)
Theorem outbound_closed_with_inbound (env : Env) (ctx : Context) (conn : Conn)
  (key : nat) (w0 w : World) (c : sshConn) :
  out_status (connCallback env ctx conn w0) = Returned c →
  stored_client ctx w = None →
  out_events (Close env c (out_world (proxyAuthCallback env ctx key w))) =
    match ctx_values (context_of ctx w) !! tailscaleDevice with
    | Some (VString addr) =>
        match Dial env "tcp" addr (dial_config (context_of ctx w)) with
        | inr client => [EClientClose client; EConnClose conn]
        | inl _ => [EConnClose conn]
        end
    | _ => [EConnClose conn]
    end.
Proof.
  intros Hc Hfresh.
  destruct (cleanup_outcome env ctx conn w0) as (c' & Hc' & Hconn & Hclean).
  rewrite Hc in Hc'. injection Hc' as <-.
  destruct c as [conn' f]. cbn in Hconn, Hclean. subst conn'.
  rewrite Close_outcome, Hclean. cbn. unfold cleanup_events.
  destruct (ctx_values (context_of ctx w) !! tailscaleDevice) as [[addr|x|n]|] eqn:E.
  2-4: rewrite proxyAuthCallback_without_string by (intros s; rewrite E; discriminate);
       cbn; by rewrite Hfresh.
  unfold proxyAuthCallback, bind.
  rewrite (dialDestination_with_string env ctx w addr E).
  destruct (Dial env "tcp" addr _) as [e|cl]; cbn.
  - by rewrite Hfresh.
  - unfold stored_client, context_of. cbn.
    rewrite lookup_insert_eq. cbn. by rewrite lookup_insert_eq.
Qed.

Lemma outbound_closed_with_inbound_witness :
  out_events
    (Close sample_env
       (mkSshConn 3
          (let* v := ctx_Value 0 sshContextSSHClient in
           let '(client, ok) := assert_client v in
           match ok, client with
           | true, Some c => Client_Close_call sample_env c ;; ret tt
           | _, _ => ret tt
           end))
       (out_world (proxyAuthCallback sample_env 0 1 (sample_world sample_context 0 []))))
  = [EClientClose 7; EConnClose 3].
Proof.
  apply (outbound_closed_with_inbound sample_env 0 3 1
           (sample_world sample_context 0 []) (sample_world sample_context 0 [])).
  - reflexivity.
  - vm_compute. reflexivity.
Defined.

(** ** The channel acceptor, continued *)

Section AcceptorPaths.

Variable env : Env.
Variable srv : Server.
Variable conn : nat.
Variable newChan : NewChannel.
Variable ctx : Context.
Variable w : World.

Hypothesis accepted_type :
  ChannelType newChan = "session" ∨ ChannelType newChan = "direct-tcpip".

Lemma channelHandler_accept_branch :
  channelHandler env srv conn newChan ctx w =
    (emit (EAccept newChan) ;;
     match NewChannel_Accept env newChan with
     | inl err => send_error ("failed to accept session channel: " +:+ err)
     | inr (localChan, localChanReqs) =>
         defer (Channel_Close_call localChan)
           (let* v := ctx_Value ctx sshContextSSHClient in
            let '(client, ok) := assert_client v in
            if negb ok
            then send_error "could not retrieve client from context"
            else
              let* r := OpenChannel_call env client (ChannelType newChan)
                          (ExtraData newChan) in
              match r with
              | inl err => send_error ("failed to open remote channel: " +:+ err)
              | inr (remoteChan, remoteChanReqs) =>
                  defer (Channel_Close_call remoteChan)
                    (proxyChannel env localChan remoteChan localChanReqs
                       remoteChanReqs conn ctx)
              end)
     end) w.
Proof.
  unfold channelHandler. apply accepted_type_test in accepted_type.
  by rewrite accepted_type.
Qed.

Lemma accept_failure_outcome (err : error) :
  NewChannel_Accept env newChan = inl err →
  0 < errors_reader w →
  channelHandler env srv conn newChan ctx w =
    mkOutcome (Returned tt)
      (after_report ("failed to accept session channel: " +:+ err) w)
      [EAccept newChan].
Proof.
  intros Hacc Hr. rewrite channelHandler_accept_branch, Hacc.
  unfold bind. cbn. by rewrite send_error_delivers.
Qed.

Lemma missing_client_outcome (localChan : Channel) (localChanReqs : Requests) :
  NewChannel_Accept env newChan = inr (localChan, localChanReqs) →
  (∀ c, ctx_values (context_of ctx w) !! sshContextSSHClient ≠ Some (VClient c)) →
  0 < errors_reader w →
  channelHandler env srv conn newChan ctx w =
    mkOutcome (Returned tt)
      (after_report "could not retrieve client from context" w)
      [EAccept newChan; EChannelClose localChan].
Proof.
  intros Hacc Hno Hr. rewrite channelHandler_accept_branch, Hacc.
  unfold bind, defer, ctx_Value. cbn. unfold context_of in Hno.
  destruct (ctx_values (default empty_context (contexts w !! ctx)) !! sshContextSSHClient)
    as [[s|c|n]|]; cbn; try (by rewrite send_error_delivers).
  by destruct (Hno c).
Qed.

Lemma open_failure_outcome (localChan : Channel) (localChanReqs : Requests)
  (client : Client) (err : error) :
  NewChannel_Accept env newChan = inr (localChan, localChanReqs) →
  stored_client ctx w = Some client →
  Client_OpenChannel env client (ChannelType newChan) (ExtraData newChan) = inl err →
  0 < errors_reader w →
  channelHandler env srv conn newChan ctx w =
    mkOutcome (Returned tt)
      (after_report ("failed to open remote channel: " +:+ err) w)
      [EAccept newChan;
       EOpenChannel client (ChannelType newChan) (ExtraData newChan);
       EChannelClose localChan].
Proof.
  intros Hacc Hcl Hopen Hr. rewrite channelHandler_accept_branch, Hacc.
  unfold bind, defer, ctx_Value. cbn. unfold stored_client, context_of in Hcl.
  destruct (ctx_values (default empty_context (contexts w !! ctx)) !! sshContextSSHClient)
    as [[s|[c|]|n]|]; try discriminate.
  injection Hcl as ->. cbn. rewrite Hopen. cbn. by rewrite send_error_delivers.
Qed.

Lemma unread_failure_outcome (localChan : Channel) (localChanReqs : Requests) :
  NewChannel_Accept env newChan = inr (localChan, localChanReqs) →
  unread_errors w →
  match ctx_values (context_of ctx w) !! sshContextSSHClient with
  | Some (VClient (Some client)) =>
      ∀ err,
        Client_OpenChannel env client (ChannelType newChan) (ExtraData newChan) = inl err →
        channelHandler env srv conn newChan ctx w =
          mkOutcome Parked w
            [EAccept newChan;
             EOpenChannel client (ChannelType newChan) (ExtraData newChan)]
  | Some (VClient None) => True
  | _ => channelHandler env srv conn newChan ctx w = mkOutcome Parked w [EAccept newChan]
  end.
Proof.
  intros Hacc Hq. rewrite channelHandler_accept_branch, Hacc.
  unfold bind, defer, ctx_Value, context_of. cbn.
  destruct (ctx_values (default empty_context (contexts w !! ctx)) !! sshContextSSHClient)
    as [[s|[c|]|n]|]; cbn; try (by rewrite send_error_parks); [|done].
  intros err Hopen. rewrite Hopen. cbn. by rewrite send_error_parks.
Qed.

Lemma nil_client_outcome (localChan : Channel) (localChanReqs : Requests) :
  NewChannel_Accept env newChan = inr (localChan, localChanReqs) →
  ctx_values (context_of ctx w) !! sshContextSSHClient = Some (VClient None) →
  channelHandler env srv conn newChan ctx w =
    mkOutcome Panicked w [EAccept newChan; EChannelClose localChan].
Proof.
  intros Hacc Hnil. rewrite channelHandler_accept_branch, Hacc.
  unfold bind, defer, ctx_Value. cbn. unfold context_of in Hnil. by rewrite Hnil.
Qed.

Lemma bridged_outcome (localChan : Channel) (localChanReqs : Requests)
  (client : Client) (remoteChan : Channel) (remoteChanReqs : Requests) :
  NewChannel_Accept env newChan = inr (localChan, localChanReqs) →
  stored_client ctx w = Some client →
  Client_OpenChannel env client (ChannelType newChan) (ExtraData newChan)
  = inr (remoteChan, remoteChanReqs) →
  let loop :=
    proxyChannelStreams env localChan remoteChan localChanReqs remoteChan (make_chan 2) w in
  out_events (channelHandler env srv conn newChan ctx w) =
    [EAccept newChan;
     EOpenChannel client (ChannelType newChan) (ExtraData newChan);
     EGo (GoCopy RemoteToLocal localChan remoteChan);
     EGo (GoCopy LocalToRemote remoteChan localChan);
     EGo (GoCopyStderr LocalToRemote remoteChan localChan);
     EGo (GoCopyStderr RemoteToLocal localChan remoteChan)]
    ++ out_events loop
    ++ match out_status loop with
       | Parked => []
       | _ => [EChannelClose remoteChan; EChannelClose localChan]
       end
  ∧ out_status (channelHandler env srv conn newChan ctx w) = out_status loop
  ∧ out_world (channelHandler env srv conn newChan ctx w) = out_world loop.
Proof.
  intros Hacc Hcl Hopen loop. rewrite channelHandler_accept_branch, Hacc.
  unfold stored_client, context_of in Hcl. subst loop.
  unfold bind, defer, ctx_Value, proxyChannel, proxyStreams, proxyStderrStreams. cbn.
  destruct (ctx_values (default empty_context (contexts w !! ctx)) !! sshContextSSHClient)
    as [[s|[c|]|n]|]; try discriminate.
  injection Hcl as ->. cbn. rewrite Hopen. cbn.
  destruct (out_status (proxyChannelStreams env localChan remoteChan localChanReqs
                          remoteChan (make_chan 2) w)) as [[]| |];
    cbn; rewrite <- ?app_assoc, ?app_nil_r; cbn; done.
Qed.

End AcceptorPaths.

(** X4. When an acceptable channel request cannot be accepted, the
    handler does nothing but report it: one error, naming the cause, goes
    to the reader of [Errors()]; no outbound channel is opened and nothing
    is closed. *)
Theorem accept_failure_reported (env : Env) (srv : Server) (conn : nat)
  (newChan : NewChannel) (ctx : Context) (w : World) (err : error) :
  ChannelType newChan = "session" ∨ ChannelType newChan = "direct-tcpip" →
  NewChannel_Accept env newChan = inl err →
  0 < errors_reader w →
  channelHandler env srv conn newChan ctx w =
    mkOutcome (Returned tt)
      (after_report ("failed to accept session channel: " +:+ err) w)
      [EAccept newChan].
Proof. intros. by apply accept_failure_outcome. Qed.

Lemma accept_failure_reported_witness :
  channelHandler failing_accept_env sample_server 1 (mkNewChannel 0 "session" []) 0
    (sample_world authenticated_context 1 []) =
  mkOutcome (Returned tt)
    (after_report "failed to accept session channel: EOF"
       (sample_world authenticated_context 1 []))
    [EAccept (mkNewChannel 0 "session" [])].
Proof.
  apply (accept_failure_reported failing_accept_env sample_server 1
           (mkNewChannel 0 "session" []) 0 (sample_world authenticated_context 1 []) "EOF").
  - left. reflexivity.
  - reflexivity.
  - cbn. lia.
Defined.

(** X5. Once the inbound channel is accepted, a handler that cannot
    mirror it gives it back: when the context holds no client, and when
    the outbound open fails, the inbound channel is closed, the failure is
    reported once, and no copy task is started. *)
Theorem failed_mirror_releases_inbound (env : Env) (srv : Server) (conn : nat)
  (newChan : NewChannel) (ctx : Context) (w : World) (localChan : Channel)
  (localChanReqs : Requests) :
  ChannelType newChan = "session" ∨ ChannelType newChan = "direct-tcpip" →
  NewChannel_Accept env newChan = inr (localChan, localChanReqs) →
  0 < errors_reader w →
  ((∀ c, ctx_values (context_of ctx w) !! sshContextSSHClient ≠ Some (VClient c)) →
   channelHandler env srv conn newChan ctx w =
     mkOutcome (Returned tt)
       (after_report "could not retrieve client from context" w)
       [EAccept newChan; EChannelClose localChan])
  ∧ (∀ client err,
       stored_client ctx w = Some client →
       Client_OpenChannel env client (ChannelType newChan) (ExtraData newChan) = inl err →
       channelHandler env srv conn newChan ctx w =
         mkOutcome (Returned tt)
           (after_report ("failed to open remote channel: " +:+ err) w)
           [EAccept newChan;
            EOpenChannel client (ChannelType newChan) (ExtraData newChan);
            EChannelClose localChan]).
Proof.
  intros Hty Hacc Hr. split.
  - intros Hno. by eapply missing_client_outcome.
  - intros client err Hcl Hopen. by eapply open_failure_outcome.
Qed.

Lemma failed_mirror_releases_inbound_witness :
  channelHandler sample_env sample_server 1 (mkNewChannel 0 "session" []) 0
    (sample_world sample_context 1 []) =
  mkOutcome (Returned tt)
    (after_report "could not retrieve client from context"
       (sample_world sample_context 1 []))
    [EAccept (mkNewChannel 0 "session" []); EChannelClose 10].
Proof.
  apply (failed_mirror_releases_inbound sample_env sample_server 1
           (mkNewChannel 0 "session" []) 0 (sample_world sample_context 1 []) 10 11).
  - left. reflexivity.
  - reflexivity.
  - cbn. lia.
  - intros c. vm_compute. discriminate.
Defined.

(** X6. With nobody receiving from [Errors()], the same two failures
    leave the handler parked on its report, before its deferred calls:
    the inbound channel it accepted is not closed. *)
Theorem unread_failure_keeps_inbound_open (env : Env) (srv : Server) (conn : nat)
  (newChan : NewChannel) (ctx : Context) (w : World) (localChan : Channel)
  (localChanReqs : Requests) :
  ChannelType newChan = "session" ∨ ChannelType newChan = "direct-tcpip" →
  NewChannel_Accept env newChan = inr (localChan, localChanReqs) →
  unread_errors w →
  (∀ c, ctx_values (context_of ctx w) !! sshContextSSHClient ≠ Some (VClient c))
  ∨ (∃ client err,
       stored_client ctx w = Some client
       ∧ Client_OpenChannel env client (ChannelType newChan) (ExtraData newChan) = inl err) →
  out_status (channelHandler env srv conn newChan ctx w) = Parked
  ∧ out_world (channelHandler env srv conn newChan ctx w) = w
  ∧ List.filter is_close (out_events (channelHandler env srv conn newChan ctx w)) = [].
Proof.
  intros Hty Hacc Hq Hcase.
  pose proof (unread_failure_outcome env srv conn newChan ctx w Hty localChan
                localChanReqs Hacc Hq) as H.
  destruct Hcase as [Hno | (client & err & Hcl & Hopen)].
  - destruct (ctx_values (context_of ctx w) !! sshContextSSHClient) as [[s|c|n]|] eqn:E;
      try (by rewrite H).
    by destruct (Hno c).
  - unfold stored_client in Hcl.
    destruct (ctx_values (context_of ctx w) !! sshContextSSHClient) as [[s|[c|]|n]|];
      try discriminate.
    injection Hcl as ->. by rewrite (H err Hopen).
Qed.

Lemma unread_failure_keeps_inbound_open_witness :
  out_status
    (channelHandler sample_env sample_server 1 (mkNewChannel 0 "session" []) 0
       (sample_world sample_context 0 [])) = Parked.
Proof.
  apply (unread_failure_keeps_inbound_open sample_env sample_server 1
           (mkNewChannel 0 "session" []) 0 (sample_world sample_context 0 []) 10 11).
  - left. reflexivity.
  - reflexivity.
  - split; reflexivity.
  - left. intros c. vm_compute. discriminate.
Defined.

(** X7. The handler tests only that the context value is a client
    pointer, not that the pointer is non-nil: with a nil client stored it
    faults at the outbound open; the deferred close of the inbound channel
    still runs. *)
Theorem nil_client_faults_after_accept (env : Env) (srv : Server) (conn : nat)
  (newChan : NewChannel) (ctx : Context) (w : World) (localChan : Channel)
  (localChanReqs : Requests) :
  ChannelType newChan = "session" ∨ ChannelType newChan = "direct-tcpip" →
  NewChannel_Accept env newChan = inr (localChan, localChanReqs) →
  ctx_values (context_of ctx w) !! sshContextSSHClient = Some (VClient None) →
  channelHandler env srv conn newChan ctx w =
    mkOutcome Panicked w [EAccept newChan; EChannelClose localChan].
Proof. intros. by eapply nil_client_outcome. Qed.

Lemma nil_client_faults_after_accept_witness :
  channelHandler sample_env sample_server 1 (mkNewChannel 0 "session" []) 0
    (sample_world
       (mkContextData {[ sshContextSSHClient := VClient None ]} "alice" "" "") 0 []) =
  mkOutcome Panicked
    (sample_world
       (mkContextData {[ sshContextSSHClient := VClient None ]} "alice" "" "") 0 [])
    [EAccept (mkNewChannel 0 "session" []); EChannelClose 10].
Proof.
  apply (nil_client_faults_after_accept sample_env sample_server 1
           (mkNewChannel 0 "session" []) 0
           (sample_world
              (mkContextData {[ sshContextSSHClient := VClient None ]} "alice" "" "") 0 [])
           10 11).
  - left. reflexivity.
  - reflexivity.
  - vm_compute. reflexivity.
Defined.

(** X8. When the outbound channel opens, the handler starts the four copy
    tasks (primary and stderr, both directions), runs the request loop,
    and, unless the loop stays parked, closes the pair on its way out:
    the outbound channel first, the inbound channel last.  Its status and
    final world are those of the loop. *)
Theorem bridged_channel_event_order (env : Env) (srv : Server) (conn : nat)
  (newChan : NewChannel) (ctx : Context) (w : World) (localChan : Channel)
  (localChanReqs : Requests) (client : Client) (remoteChan : Channel)
  (remoteChanReqs : Requests) :
  ChannelType newChan = "session" ∨ ChannelType newChan = "direct-tcpip" →
  NewChannel_Accept env newChan = inr (localChan, localChanReqs) →
  stored_client ctx w = Some client →
  Client_OpenChannel env client (ChannelType newChan) (ExtraData newChan)
  = inr (remoteChan, remoteChanReqs) →
  let loop :=
    proxyChannelStreams env localChan remoteChan localChanReqs remoteChan (make_chan 2) w in
  out_events (channelHandler env srv conn newChan ctx w) =
    [EAccept newChan;
     EOpenChannel client (ChannelType newChan) (ExtraData newChan);
     EGo (GoCopy RemoteToLocal localChan remoteChan);
     EGo (GoCopy LocalToRemote remoteChan localChan);
     EGo (GoCopyStderr LocalToRemote remoteChan localChan);
     EGo (GoCopyStderr RemoteToLocal localChan remoteChan)]
    ++ out_events loop
    ++ match out_status loop with
       | Parked => []
       | _ => [EChannelClose remoteChan; EChannelClose localChan]
       end
  ∧ out_status (channelHandler env srv conn newChan ctx w) = out_status loop
  ∧ out_world (channelHandler env srv conn newChan ctx w) = out_world loop.
Proof. intros. by eapply bridged_outcome. Qed.

Lemma bridged_channel_event_order_witness :
  out_events
    (channelHandler sample_env sample_server 1 (mkNewChannel 0 "session" []) 0
       (sample_world authenticated_context 0 [RecvDone])) =
  [EAccept (mkNewChannel 0 "session" []); EOpenChannel 7 "session" [];
   EGo (GoCopy RemoteToLocal 10 20); EGo (GoCopy LocalToRemote 20 10);
   EGo (GoCopyStderr LocalToRemote 20 10); EGo (GoCopyStderr RemoteToLocal 10 20);
   EChannelClose 20; EChannelClose 10].
Proof.
  apply (bridged_channel_event_order sample_env sample_server 1
           (mkNewChannel 0 "session" []) 0
           (sample_world authenticated_context 0 [RecvDone]) 10 11 7 20 21).
  - left. reflexivity.
  - reflexivity.
  - vm_compute. reflexivity.
  - reflexivity.
Defined.

(** ** The request forwarder and its loop, continued *)

Lemma forward_sends (env : Env) (sshChan : Channel) (req : Request) (w : World) :
  List.filter is_send (out_events (forwardChannelRequest env sshChan req w))
  = [ESendRequest sshChan (ReqType req) (WantReply req) (Payload req)].
Proof.
  unfold forwardChannelRequest, Channel_SendRequest, Request_Reply, bind. cbn.
  destruct (Channel_peer env sshChan _ _ _) as [e|r]; cbn; [done|].
  destruct (WantReply req); cbn; [|done].
  by destruct (Request_ack env req (reply_success r)).
Qed.

(** X9. How forwarding a request fails.  A request that cannot be sent is
    not answered: the only event is the send, and the error returned
    names the send.  A reply that cannot be written back gives an error
    naming the reply.  In every other case forwarding returns nil; it never
    changes the world. *)
Theorem forward_failure_modes (env : Env) (sshChan : Channel) (req : Request) (w : World) :
  out_world (forwardChannelRequest env sshChan req w) = w
  ∧ match Channel_peer env sshChan (ReqType req) (WantReply req) (Payload req) with
    | inl err =>
        out_status (forwardChannelRequest env sshChan req w)
          = Returned (Some (err +:+ " failed to send request"))
        ∧ out_events (forwardChannelRequest env sshChan req w)
          = [ESendRequest sshChan (ReqType req) (WantReply req) (Payload req)]
    | inr r =>
        out_status (forwardChannelRequest env sshChan req w)
          = Returned
              (if WantReply req
               then (λ err, err +:+ " failed to reply to request")
                      <$> Request_ack env req (reply_success r)
               else None)
    end.
Proof.
  unfold forwardChannelRequest, Channel_SendRequest, Request_Reply, bind. cbn.
  destruct (Channel_peer env sshChan _ _ _) as [e|r]; cbn; [done|].
  destruct (WantReply req); cbn; [|done].
  by destruct (Request_ack env req (reply_success r)).
Qed.

Section LoopFacts.

Variable env : Env.
Variables localChan remoteChan : Channel.

Lemma arrival_turn (a : side * Request) (w : World) :
  forward_result env (opposite localChan remoteChan (fst a)) (snd a) = None →
  out_status (select_turn env localChan remoteChan (arrival_case a) w) = Returned Continue
  ∧ out_world (select_turn env localChan remoteChan (arrival_case a) w) = w
  ∧ out_events (select_turn env localChan remoteChan (arrival_case a) w)
    = out_events (forwardChannelRequest env (opposite localChan remoteChan (fst a))
                    (snd a) w).
Proof.
  destruct a as [[] req]; cbn; intros Hok.
  all: match goal with
       | |- context [forwardChannelRequest _ ?ch ?r ?w0] =>
           destruct (forward_outcome env ch r w0) as [Hs Hw]
       end.
  all: unfold bind; rewrite Hs, Hok, Hw; cbn; by rewrite ?app_nil_r.
Qed.

Lemma ending_turn (c : select_case) (w : World) :
  ends_loop c = true →
  select_turn env localChan remoteChan c w = mkOutcome (Returned Return) w [].
Proof. by destruct c as [[]|[]|]. Qed.

Lemma select_loop_step (c : select_case) (rest : list select_case) (w : World) :
  select_loop env localChan remoteChan (c :: rest) w =
    let t := select_turn env localChan remoteChan c (set_selects rest w) in
    match out_status t with
    | Returned Continue =>
        let o := select_loop env localChan remoteChan rest (out_world t) in
        mkOutcome (out_status o) (out_world o) (out_events t ++ out_events o)
    | Returned Return => mkOutcome (Returned tt) (out_world t) (out_events t)
    | Panicked => mkOutcome Panicked (out_world t) (out_events t)
    | Parked => mkOutcome Parked (out_world t) (out_events t)
    end.
Proof.
  cbn [select_loop]. unfold bind. cbn.
  destruct (out_status (select_turn env localChan remoteChan c (set_selects rest w)))
    as [[]| |]; cbn; by rewrite ?app_nil_r.
Qed.

Lemma select_loop_selects (c : select_case) (rest x : list select_case) (w : World) :
  select_loop env localChan remoteChan (c :: rest) (set_selects x w)
  = select_loop env localChan remoteChan (c :: rest) w.
Proof. by rewrite !select_loop_step. Qed.

Lemma loop_prefix (arrivals : list (side * Request)) (c : select_case)
  (rest : list select_case) (w : World) :
  (∀ a, a ∈ arrivals →
        forward_result env (opposite localChan remoteChan (fst a)) (snd a) = None) →
  let o := select_loop env localChan remoteChan (map arrival_case arrivals ++ c :: rest) w in
  let o' := select_loop env localChan remoteChan (c :: rest) w in
  out_status o = out_status o'
  ∧ out_world o = out_world o'
  ∧ List.filter is_send (out_events o) =
      map (λ a, ESendRequest (opposite localChan remoteChan (fst a)) (ReqType (snd a))
                  (WantReply (snd a)) (Payload (snd a))) arrivals
      ++ List.filter is_send (out_events o').
Proof.
  intros Hok. revert w.
  induction arrivals as [|a more IH]; intros w; [done|].
  change (map arrival_case (a :: more) ++ c :: rest)
    with (arrival_case a :: (map arrival_case more ++ c :: rest)).
  destruct (arrival_turn a (set_selects (map arrival_case more ++ c :: rest) w))
    as (Hs & Hw & He); [apply Hok; left|].
  destruct (IH (λ b Hb, Hok b (list_elem_of_further _ _ _ Hb))
              (set_selects (map arrival_case more ++ c :: rest) w))
    as (IHs & IHw & IHe).
  rewrite select_loop_selects in IHs, IHw, IHe.
  cbn zeta. rewrite select_loop_step. cbn zeta. rewrite Hs, Hw. cbn.
  split; [done|]. split; [done|].
  rewrite He, List.filter_app, forward_sends, IHe. done.
Qed.

Lemma loop_in_order (arrivals : list (side * Request)) (stop : select_case)
  (later : list select_case) (w : World) :
  (∀ a, a ∈ arrivals →
        forward_result env (opposite localChan remoteChan (fst a)) (snd a) = None) →
  ends_loop stop = true →
  let o := select_loop env localChan remoteChan
             (map arrival_case arrivals ++ stop :: later) w in
  out_status o = Returned tt
  ∧ out_world o = set_selects later w
  ∧ List.filter is_send (out_events o) =
      map (λ a, ESendRequest (opposite localChan remoteChan (fst a)) (ReqType (snd a))
                  (WantReply (snd a)) (Payload (snd a))) arrivals.
Proof.
  intros Hok Hstop.
  destruct (loop_prefix arrivals stop later w Hok) as (Hs & Hw & He).
  cbn zeta. rewrite Hs, Hw, He, select_loop_step. cbn zeta.
  rewrite ending_turn by done. cbn. by rewrite app_nil_r.
Qed.

Lemma failing_turn (a : side * Request) (e : error) (w : World) :
  forward_result env (opposite localChan remoteChan (fst a)) (snd a) = Some e →
  select_turn env localChan remoteChan (arrival_case a) w =
    let r := send_error ("failed to forward request: " +:+ e) w in
    mkOutcome
      match out_status r with
      | Returned _ => Returned Return
      | Panicked => Panicked
      | Parked => Parked
      end
      (out_world r)
      (out_events (forwardChannelRequest env (opposite localChan remoteChan (fst a))
                     (snd a) w)).
Proof.
  destruct a as [[] req]; cbn; intros Hf.
  all: match goal with
       | |- context [forwardChannelRequest _ ?ch ?r ?w0] =>
           destruct (forward_outcome env ch r w0) as [Hs Hw]
       end.
  all: unfold bind at 1; rewrite Hs, Hf, Hw; cbn.
  all: unfold bind; rewrite send_error_events.
  all: destruct (out_status (send_error _ w)); cbn; by rewrite ?app_nil_r.
Qed.

Lemma loop_failed_forward (arrivals : list (side * Request)) (a : side * Request)
  (e : error) (later : list select_case) (w : World) :
  (∀ b, b ∈ arrivals →
        forward_result env (opposite localChan remoteChan (fst b)) (snd b) = None) →
  forward_result env (opposite localChan remoteChan (fst a)) (snd a) = Some e →
  let o := select_loop env localChan remoteChan
             (map arrival_case arrivals ++ arrival_case a :: later) w in
  let r := send_error ("failed to forward request: " +:+ e) (set_selects later w) in
  out_status o = out_status r
  ∧ out_world o = out_world r
  ∧ List.filter is_send (out_events o) =
      map (λ b, ESendRequest (opposite localChan remoteChan (fst b)) (ReqType (snd b))
                  (WantReply (snd b)) (Payload (snd b))) (arrivals ++ [a]).
Proof.
  intros Hok Hf.
  destruct (loop_prefix arrivals (arrival_case a) later w Hok) as (Hs & Hw & He).
  cbn zeta. rewrite Hs, Hw, He, select_loop_step. cbn zeta.
  rewrite (failing_turn a e (set_selects later w) Hf). cbn.
  rewrite map_app. cbn.
  destruct (out_status (send_error _ (set_selects later w))) as [[]| |]; cbn;
    rewrite forward_sends; done.
Qed.

End LoopFacts.

(** X10. Requests are forwarded in the order they arrive, each to the
    other side of the pair: when the scheduler hands the loop a run of
    requests that all forward without error and then a case that ends it
    (a nil request, or a completion signal), the loop returns, the sends
    it performed are those requests, in order, on the opposite channel,
    and the cases that come later are left untouched. *)
Theorem requests_forwarded_in_order (env : Env) (localChan remoteChan : Channel)
  (localChanReqs remoteChanReqs : Requests) (done : chan unit)
  (arrivals : list (side * Request)) (stop : select_case) (later : list select_case)
  (w : World) :
  selects w = map arrival_case arrivals ++ stop :: later →
  (∀ a, a ∈ arrivals →
        forward_result env (opposite localChan remoteChan (fst a)) (snd a) = None) →
  ends_loop stop = true →
  let o := proxyChannelStreams env localChan remoteChan localChanReqs remoteChanReqs
             done w in
  out_status o = Returned tt
  ∧ selects (out_world o) = later
  ∧ contexts (out_world o) = contexts w
  ∧ List.filter is_send (out_events o) =
      map (λ a, ESendRequest (opposite localChan remoteChan (fst a)) (ReqType (snd a))
                  (WantReply (snd a)) (Payload (snd a))) arrivals.
Proof.
  intros Hsel Hok Hstop o. subst o. unfold proxyChannelStreams. rewrite Hsel.
  destruct (loop_in_order env localChan remoteChan arrivals stop later w Hok Hstop)
    as (Hs & Hw & He).
  rewrite Hs, Hw, He. done.
Qed.

Lemma requests_forwarded_in_order_witness :
  List.filter is_send
    (out_events
       (proxyChannelStreams sample_env 10 20 11 20 (make_chan 2)
          (sample_world authenticated_context 0
             [RecvLocalReqs (Some (mkRequest 0 "pty-req" true []));
              RecvRemoteReqs (Some (mkRequest 1 "exit-status" false [Byte.x00]));
              RecvLocalReqs (Some (mkRequest 2 "shell" true []));
              RecvDone;
              RecvLocalReqs (Some (mkRequest 3 "late" true []))])))
  = [ESendRequest 20 "pty-req" true [];
     ESendRequest 10 "exit-status" false [Byte.x00];
     ESendRequest 20 "shell" true []].
Proof.
  apply (requests_forwarded_in_order sample_env 10 20 11 20 (make_chan 2)
           [(Local, mkRequest 0 "pty-req" true []);
            (Remote, mkRequest 1 "exit-status" false [Byte.x00]);
            (Local, mkRequest 2 "shell" true [])]
           RecvDone [RecvLocalReqs (Some (mkRequest 3 "late" true []))]).
  - reflexivity.
  - intros a _. unfold forward_result. cbn. by destruct (WantReply (snd a)).
  - reflexivity.
Defined.

(** X11. A request that cannot be forwarded ends the loop: after the
    requests before it, all forwarded, the failing one is still sent,
    its failure is reported once, and the loop returns with the later
    cases untouched; with nobody receiving from [Errors()], the loop
    stays parked on that report instead of returning. *)
Theorem failed_forward_ends_loop (env : Env) (localChan remoteChan : Channel)
  (localChanReqs remoteChanReqs : Requests) (done : chan unit)
  (arrivals : list (side * Request)) (a : side * Request) (e : error)
  (later : list select_case) (w : World) :
  selects w = map arrival_case arrivals ++ arrival_case a :: later →
  (∀ b, b ∈ arrivals →
        forward_result env (opposite localChan remoteChan (fst b)) (snd b) = None) →
  forward_result env (opposite localChan remoteChan (fst a)) (snd a) = Some e →
  let o := proxyChannelStreams env localChan remoteChan localChanReqs remoteChanReqs
             done w in
  List.filter is_send (out_events o) =
    map (λ b, ESendRequest (opposite localChan remoteChan (fst b)) (ReqType (snd b))
                (WantReply (snd b)) (Payload (snd b))) (arrivals ++ [a])
  ∧ (0 < errors_reader w →
     out_status o = Returned tt
     ∧ out_world o = after_report ("failed to forward request: " +:+ e)
                       (set_selects later w))
  ∧ (unread_errors w →
     out_status o = Parked ∧ out_world o = set_selects later w).
Proof.
  intros Hsel Hok Hf o. subst o. unfold proxyChannelStreams. rewrite Hsel.
  destruct (loop_failed_forward env localChan remoteChan arrivals a e later w Hok Hf)
    as (Hs & Hw & He).
  rewrite Hs, Hw, He. split; [done|]. split.
  - intros Hr. by rewrite send_error_delivers.
  - intros Hq. by rewrite send_error_parks.
Qed.

Lemma failed_forward_ends_loop_witness :
  List.filter is_send
    (out_events
       (proxyChannelStreams broken_peer_env 10 20 11 20 (make_chan 2)
          (sample_world authenticated_context 1
             [RecvLocalReqs (Some (mkRequest 0 "shell" true [])); RecvDone])))
  = [ESendRequest 20 "shell" true []].
Proof.
  apply (failed_forward_ends_loop broken_peer_env 10 20 11 20 (make_chan 2) []
           (Local, mkRequest 0 "shell" true []) "EOF failed to send request" [RecvDone]).
  - reflexivity.
  - intros b Hb. by apply elem_of_nil in Hb.
  - reflexivity.
Defined.

Lemma channel_only_ret {A : Type} (a : A) : channel_only (ret a).
Proof. done. Qed.

Lemma channel_only_emit (e : event) : connection_level e = false → channel_only (emit e).
Proof. intros H w. cbn. by rewrite H. Qed.

Lemma channel_only_bind {A B : Type} (c : M A) (k : A → M B) :
  channel_only c → (∀ a, channel_only (k a)) → channel_only (bind c k).
Proof.
  intros Hc Hk w. destruct (Hc w) as [Hw He]. unfold bind.
  destruct (out_status (c w)) as [a| |]; cbn; [|done..].
  destruct (Hk a (out_world (c w))) as [Hw' He'].
  by rewrite Hw', Hw, List.filter_app, He, He'.
Qed.

Lemma channel_only_defer {A : Type} (d : M unit) (body : M A) :
  channel_only d → channel_only body → channel_only (defer d body).
Proof.
  intros Hd Hb w. destruct (Hb w) as [Hw He]. unfold defer.
  destruct (Hd (out_world (body w))) as [Hw' He'].
  destruct (out_status (body w)); cbn; [|
    |done]; by rewrite Hw', Hw, List.filter_app, He, He'.
Qed.

Lemma channel_only_send_error (msg : error) : channel_only (send_error msg).
Proof.
  intros w. unfold send_error. by destruct (chan_send _ _ _).
Qed.

Section ChannelOnly.

Variable env : Env.

Lemma channel_only_forward (ch : Channel) (req : Request) :
  channel_only (forwardChannelRequest env ch req).
Proof.
  unfold forwardChannelRequest, Channel_SendRequest, Request_Reply.
  apply channel_only_bind.
  - apply channel_only_bind; [by apply channel_only_emit|].
    intros _. destruct (Channel_peer _ _ _ _ _); apply channel_only_ret.
  - intros [reply [e|]]; [apply channel_only_ret|].
    apply channel_only_bind.
    + destruct (WantReply req); [|apply channel_only_ret].
      apply channel_only_bind; [by apply channel_only_emit|].
      intros _. apply channel_only_ret.
    + intros [e|]; apply channel_only_ret.
Qed.

Lemma channel_only_turn (l r : Channel) (c : select_case) :
  channel_only (select_turn env l r c).
Proof.
  destruct c as [[req|]|[req|]|]; cbn; try apply channel_only_ret.
  all: apply channel_only_bind; [apply channel_only_forward|].
  all: intros [e|]; [|apply channel_only_ret].
  all: apply channel_only_bind; [apply channel_only_send_error|].
  all: intros _; apply channel_only_ret.
Qed.

Lemma channel_only_loop (l r : Channel) (cases : list select_case) :
  channel_only (select_loop env l r cases).
Proof.
  induction cases as [|c rest IH]; [done|].
  cbn [select_loop]. apply channel_only_bind; [done|]. intros _.
  apply channel_only_bind; [apply channel_only_turn|].
  intros [|]; [apply IH | apply channel_only_ret].
Qed.

Lemma channel_only_handler (srv : Server) (conn : nat) (newChan : NewChannel)
  (ctx : Context) : channel_only (channelHandler env srv conn newChan ctx).
Proof.
  unfold channelHandler.
  destruct (negb _ && negb _).
  - apply channel_only_bind; [by apply channel_only_emit|]. intros _.
    destruct (NewChannel_Reject _ _ _ _);
      [apply channel_only_send_error | apply channel_only_ret].
  - apply channel_only_bind; [by apply channel_only_emit|]. intros _.
    destruct (NewChannel_Accept env newChan) as [e|[lc lr]];
      [apply channel_only_send_error|].
    apply channel_only_defer; [by apply channel_only_emit|].
    apply channel_only_bind; [done|]. intros v.
    destruct (assert_client v) as [client ok].
    destruct ok; cbn; [|apply channel_only_send_error].
    apply channel_only_bind.
    + destruct client as [c|]; [|done].
      apply channel_only_bind; [by apply channel_only_emit|].
      intros _. apply channel_only_ret.
    + intros [e|[rc rr]]; [apply channel_only_send_error|].
      apply channel_only_defer; [by apply channel_only_emit|].
      unfold proxyChannel, proxyStreams, proxyStderrStreams, proxyChannelStreams.
      repeat (apply channel_only_bind;
              [repeat (apply channel_only_bind; [|intros _]);
               by apply channel_only_emit|]; intros _).
      intros w. apply channel_only_loop.
Qed.

End ChannelOnly.

(** X12. Whatever the request and however it ends, the channel handler
    acts on channels only: it never dials, never closes the outbound
    client or the inbound connection, and never writes to a context. *)
Theorem channelHandler_leaves_connection (env : Env) (srv : Server) (conn : nat)
  (newChan : NewChannel) (ctx : Context) (w : World) :
  contexts (out_world (channelHandler env srv conn newChan ctx w)) = contexts w
  ∧ List.filter connection_level (out_events (channelHandler env srv conn newChan ctx w))
    = [].
Proof. apply channel_only_handler. Qed.

(** ** The stream bridge, continued *)

Section BridgeMore.

Variable env : Env.
Variables localChan remoteChan : Channel.

Lemma forward_no_close (ch : Channel) (req : Request) (w : World) :
  List.filter is_close (out_events (forwardChannelRequest env ch req w)) = [].
Proof.
  unfold forwardChannelRequest, Channel_SendRequest, Request_Reply, bind. cbn.
  destruct (Channel_peer env ch _ _ _) as [e|r]; cbn; [done|].
  destruct (WantReply req); cbn; [|done].
  by destruct (Request_ack env req (reply_success r)).
Qed.

Lemma turn_no_close (c : select_case) (w : World) :
  List.filter is_close (out_events (select_turn env localChan remoteChan c w)) = [].
Proof.
  destruct c as [[req|]|[req|]|]; cbn; try done.
  all: rewrite bind_events, List.filter_app, forward_no_close; cbn.
  all: destruct (out_status (forwardChannelRequest env _ req w)) as [[e|]| |]; cbn;
    try done.
  all: rewrite bind_events, send_error_events; cbn.
  all: by destruct (out_status (send_error _ _)).
Qed.

Lemma turn_world_unread (c : select_case) (w : World) :
  unread_errors w → out_world (select_turn env localChan remoteChan c w) = w.
Proof.
  intros Hq. destruct c as [[req|]|[req|]|]; cbn; try done.
  all: match goal with
       | |- context [forwardChannelRequest _ ?ch ?r] =>
           destruct (forward_outcome env ch r w) as [Hs Hw]
       end.
  all: unfold bind at 1; rewrite Hs, Hw; cbn.
  all: destruct (forward_result env _ req); cbn; [|done].
  all: unfold bind; by rewrite send_error_parks.
Qed.

Lemma closes_step (b b' : bridge) (a : action) :
  step env localChan remoteChan b a = Some b' →
  closes_of b = (if b_closed b
                 then [EChannelClose remoteChan; EChannelClose localChan] else []) →
  closes_of b' = (if b_closed b'
                  then [EChannelClose remoteChan; EChannelClose localChan] else []).
Proof.
  unfold closes_of. intros Hstep Hc.
  destruct a as [d err|d|d|c|]; cbn [step] in Hstep.
  - destruct (copy_of d b), err; try discriminate; injection Hstep as <-;
      by destruct d.
  - destruct (copy_of d b); try discriminate.
    destruct (out_status (send_error msg (b_world b))); try discriminate.
    injection Hstep as <-; by destruct d.
  - destruct (copy_of d b); try discriminate.
    destruct (chan_send (b_done b) false ()); try discriminate.
    injection Hstep as <-; by destruct d.
  - destruct (b_loop b); try discriminate.
    destruct (match c with RecvDone => _ | _ => _ end); try discriminate.
    injection Hstep as <-. cbn.
    by rewrite List.filter_app, turn_no_close, app_nil_r.
  - destruct (b_loop b); try discriminate.
    destruct (b_closed b) eqn:E; try discriminate.
    injection Hstep as <-. cbn. by rewrite List.filter_app, Hc.
Qed.

Lemma closes_run (acts : list action) (b b' : bridge) :
  run env localChan remoteChan b acts = Some b' →
  closes_of b = (if b_closed b
                 then [EChannelClose remoteChan; EChannelClose localChan] else []) →
  closes_of b' = (if b_closed b'
                  then [EChannelClose remoteChan; EChannelClose localChan] else []).
Proof.
  revert b. induction acts as [|a rest IH]; intros b Hrun Hc; cbn in Hrun.
  - by injection Hrun as <-.
  - destruct (step env localChan remoteChan b a) as [b1|] eqn:E; [|discriminate].
    eapply IH; [exact Hrun|]. eapply closes_step; eauto.
Qed.

Lemma stuck_report_step (b b' : bridge) (a : action) (d : copy_dir) (msg : error) :
  unread_errors (b_world b) →
  copy_of d b = Reporting msg →
  step env localChan remoteChan b a = Some b' →
  b_world b' = b_world b ∧ copy_of d b' = Reporting msg.
Proof.
  intros Hq Hd Hstep.
  destruct a as [d' err|d'|d'|c|]; cbn [step] in Hstep.
  - destruct (copy_of d' b) eqn:E, err; try discriminate; injection Hstep as <-;
      destruct d, d'; cbn in *; try done; congruence.
  - destruct (copy_of d' b); try discriminate.
    rewrite send_error_parks in Hstep by done. discriminate.
  - destruct (copy_of d' b) eqn:E; try discriminate.
    destruct (chan_send (b_done b) false ()); try discriminate.
    injection Hstep as <-; destruct d, d'; cbn in *; try done; congruence.
  - destruct (b_loop b); try discriminate.
    destruct (match c with RecvDone => _ | _ => _ end); try discriminate.
    injection Hstep as <-. cbn. rewrite turn_world_unread by done.
    by destruct d.
  - destruct (b_loop b); try discriminate.
    destruct (b_closed b); try discriminate.
    injection Hstep as <-. by destruct d.
Qed.

Lemma stuck_report_run (acts : list action) (b b' : bridge) (d : copy_dir) (msg : error) :
  unread_errors (b_world b) →
  copy_of d b = Reporting msg →
  run env localChan remoteChan b acts = Some b' →
  b_world b' = b_world b ∧ copy_of d b' = Reporting msg.
Proof.
  revert b. induction acts as [|a rest IH]; intros b Hq Hd Hrun; cbn in Hrun.
  - by injection Hrun as <-.
  - destruct (step env localChan remoteChan b a) as [b1|] eqn:E; [|discriminate].
    destruct (stuck_report_step b b1 a d msg Hq Hd E) as [Hw Hd1].
    destruct (IH b1) as [Hw' Hd']; [by rewrite Hw|done|done|].
    by rewrite Hw', Hw.
Qed.

End BridgeMore.

(** X13. A failed copy with nobody listening never signals.  When a
    primary copy direction ended with an error and nobody receives from
    [Errors()], that direction stays on its error report whatever the
    other tasks do: it never posts its completion signal. *)
Theorem failed_copy_never_signals (env : Env) (localChan remoteChan : Channel)
  (b b' : bridge) (d : copy_dir) (err : error) (acts : list action) :
  unread_errors (b_world b) →
  copy_of d b = Copying →
  run env localChan remoteChan b (CopyReturns d (Some err) :: acts) = Some b' →
  copy_of d b' = Reporting (copy_error_prefix d +:+ err)
  ∧ step env localChan remoteChan b' (CopyReports d) = None
  ∧ step env localChan remoteChan b' (CopyPosts d) = None.
Proof.
  intros Hq Hd Hrun. cbn [run step] in Hrun. rewrite Hd in Hrun.
  destruct (stuck_report_run env localChan remoteChan acts
              (set_copy d (Reporting (copy_error_prefix d +:+ err)) b) b' d
              (copy_error_prefix d +:+ err)) as [Hw Hd'];
    [by destruct d | by destruct d; cbn | exact Hrun |].
  split; [exact Hd'|]. cbn [step]. rewrite Hd'. split; [|done].
  rewrite send_error_parks; [done|]. rewrite Hw. by destruct d.
Qed.

Lemma failed_copy_never_signals_witness :
  copy_of RemoteToLocal
    (default (bridge_start (sample_world authenticated_context 0 []))
       (run sample_env 10 20 (bridge_start (sample_world authenticated_context 0 []))
          [CopyReturns RemoteToLocal (Some "EOF"); CopyReturns LocalToRemote None;
           CopyPosts LocalToRemote; LoopTurn RecvDone; HandlerCloses]))
  = Reporting "remote to local copy error: EOF".
Proof.
  apply (failed_copy_never_signals sample_env 10 20
           (bridge_start (sample_world authenticated_context 0 [])) _ RemoteToLocal "EOF"
           [CopyReturns LocalToRemote None; CopyPosts LocalToRemote; LoopTurn RecvDone;
            HandlerCloses]).
  - split; reflexivity.
  - reflexivity.
  - reflexivity.
Defined.

(** X14. A bridge closes its pair at most once, and only through the
    handler: in every state it can reach, the channel closes performed so
    far are none while the pair is open, and exactly the outbound channel
    followed by the inbound channel once it is closed. *)
Theorem pair_closed_once (env : Env) (localChan remoteChan : Channel) (w : World)
  (acts : list action) (b : bridge) :
  run env localChan remoteChan (bridge_start w) acts = Some b →
  closes_of b = (if b_closed b
                 then [EChannelClose remoteChan; EChannelClose localChan] else [])
  ∧ (b_closed b = true → step env localChan remoteChan b HandlerCloses = None).
Proof.
  intros Hrun. split.
  - by eapply closes_run.
  - intros Hc. cbn. rewrite Hc. by destruct (b_loop b).
Qed.

Lemma pair_closed_once_witness :
  ∃ b,
    run sample_env 10 20 (bridge_start (sample_world authenticated_context 0 []))
      [LoopTurn (RecvLocalReqs (Some (mkRequest 0 "shell" true [])));
       LoopTurn (RecvRemoteReqs None); HandlerCloses] = Some b
    ∧ closes_of b = [EChannelClose 20; EChannelClose 10].
Proof.
  eexists. split; [reflexivity|].
  apply (pair_closed_once sample_env 10 20 (sample_world authenticated_context 0 [])
           [LoopTurn (RecvLocalReqs (Some (mkRequest 0 "shell" true [])));
            LoopTurn (RecvRemoteReqs None); HandlerCloses]).
  reflexivity.
Defined.

(** * Properties of the terminal front-end *)

Lemma copy_items (items acc : list ListItem) :
  fold_left (fun listItems item =>
               listItems ++ [mkListItem (Name item) (Info item) (Action item)])
    items acc = acc ++ items.
Proof.
  revert acc. induction items as [|[n i a] rest IH]; intros acc; cbn.
  - by rewrite app_nil_r.
  - rewrite IH. by rewrite <- app_assoc.
Qed.

Lemma tagged_inner (d : Device) (tags : list string) (acc : list ListItem) :
  fold_left
    (fun listItems tag =>
       if String.eqb tag "tag:e2e"
       then listItems ++ [mkListItem (Hostname d) (Device_User d) tssh.ActionDeviceSSH]
       else listItems)
    tags acc
  = acc ++ repeat (device_item d)
             (length (List.filter (λ tag, String.eqb tag "tag:e2e") tags)).
Proof.
  revert acc. induction tags as [|t rest IH]; intros acc; cbn.
  - by rewrite app_nil_r.
  - rewrite IH. destruct (String.eqb t "tag:e2e"); cbn; [|done].
    by rewrite <- app_assoc.
Qed.

Lemma tagged_outer (devices : list Device) (acc : list ListItem) :
  fold_left
    (fun listItems device =>
       fold_left
         (fun listItems tag =>
            if String.eqb tag "tag:e2e"
            then listItems
                 ++ [mkListItem (Hostname device) (Device_User device) tssh.ActionDeviceSSH]
            else listItems)
         (Tags device) listItems)
    devices acc
  = acc ++ flat_map
             (λ d, repeat (device_item d)
                     (length (List.filter (λ tag, String.eqb tag "tag:e2e") (Tags d))))
             devices.
Proof.
  revert acc. induction devices as [|d rest IH]; intros acc; cbn.
  - by rewrite app_nil_r.
  - rewrite tagged_inner, IH. by rewrite <- app_assoc.
Qed.

Lemma tag_count_positive (tags : list string) :
  0 < length (List.filter (λ tag, String.eqb tag "tag:e2e") tags) ↔ "tag:e2e" ∈ tags.
Proof.
  induction tags as [|t rest IH]; cbn.
  - split; [lia|]. intros H. by apply elem_of_nil in H.
  - rewrite elem_of_cons. destruct (String.eqb_spec t "tag:e2e") as [->|Hne]; cbn.
    + split; [auto|lia].
    + rewrite IH. split; [by right | by intros [H|H]].
Qed.

(** X15. The device list made from a fetch result holds one item for
    every occurrence of the tag ["tag:e2e"] on a device, in the order of
    the devices; so a device is listed exactly when it carries the tag,
    with its host name, its user and the device action, and a device
    carrying the tag twice is listed twice. *)
Theorem tagged_items_spec (devices : list Device) :
  ui.tagged_items devices =
    flat_map
      (λ d, repeat (device_item d)
              (length (List.filter (λ tag, String.eqb tag "tag:e2e") (Tags d))))
      devices
  ∧ ∀ i, i ∈ ui.tagged_items devices
         ↔ ∃ d, d ∈ devices ∧ "tag:e2e" ∈ Tags d ∧ i = device_item d.
Proof.
  assert (H : ui.tagged_items devices =
    flat_map
      (λ d, repeat (device_item d)
              (length (List.filter (λ tag, String.eqb tag "tag:e2e") (Tags d))))
      devices) by apply (tagged_outer devices []).
  split; [exact H|]. intros i. rewrite H, list_elem_of_In, in_flat_map. split.
  - intros (d & Hd & Hi). apply repeat_spec in Hi as Heq.
    exists d. split; [by apply list_elem_of_In|]. split; [|done].
    apply tag_count_positive.
    destruct (length (List.filter _ (Tags d))); [by destruct Hi | lia].
  - intros (d & Hd & Ht & ->). exists d. split; [by apply list_elem_of_In|].
    apply tag_count_positive in Ht.
    destruct (length (List.filter _ (Tags d))); [lia | by left].
Qed.

Ltac open_pairs :=
  repeat match goal with
         | |- context [match ?p with pair _ _ => _ end] => destruct p
         end.

Section FrontEnd.

Variable tk : Toolkit.
Variable env : ui.Env.

Lemma ListModel_eta (l : components.ListModel tk) :
  components.mkListModel tk (components.ptr tk l) (components.list_ tk l) = l.
Proof. by destruct l. Qed.

Lemma SetItems_passes (l : components.ListModel tk) (items : list ListItem) :
  components.SetItems tk l items =
    (components.mkListModel tk (components.ptr tk l)
       (fst (list_SetItems tk items (components.list_ tk l))),
     snd (list_SetItems tk items (components.list_ tk l))).
Proof.
  unfold components.SetItems. rewrite copy_items. cbn.
  by destruct (list_SetItems tk items (components.list_ tk l)).
Qed.

Lemma Update_nil (m : ui.mainModel tk) :
  ui.Update tk env m NilMsg = (ui.handleDefault tk m NilMsg, []).
Proof. reflexivity. Qed.

Lemma handleDefault_keeps (m : ui.mainModel tk) (msg : Msg) :
  ui.state_ tk (fst (ui.handleDefault tk m msg)) = ui.state_ tk m
  ∧ ui.err tk (fst (ui.handleDefault tk m msg)) = ui.err tk m.
Proof.
  unfold ui.handleDefault. destruct (ui.state_ tk m) eqn:E; open_pairs; cbn; done.
Qed.

Lemma handleAction_device (m : ui.mainModel tk) (item : ListItem) :
  Action item = tssh.ActionDeviceSSH →
  let m' := fst (fst (ui.handleAction tk env m item)) in
  snd (fst (ui.handleAction tk env m item)) = CmdNil
  ∧ snd (ui.handleAction tk env m item) = snd (ui.sshDevice env (Name item))
  ∧ ui.deviceList tk m' = ui.deviceList tk m
  ∧ match fst (ui.sshDevice env (Name item)) with
    | Some e => ui.state_ tk m' = ui.stateFailure ∧ ui.err tk m' = Some e
                ∧ ui.mainMenu tk m' = ui.mainMenu tk m
    | None => ui.state_ tk m' = ui.stateMenu ∧ ui.err tk m' = ui.err tk m
              ∧ ui.mainMenu tk m' = fst (components.Update tk (ui.mainMenu tk m) NilMsg)
    end.
Proof.
  intros Ha. unfold ui.handleAction. rewrite Ha.
  destruct (ui.sshDevice env (Name item)) as [[e|] evs]; cbn; [done|].
  unfold components.handleDefault.
  by destruct (list_Update tk (components.list_ tk (ui.mainMenu tk m)) NilMsg).
Qed.

Lemma Update_failure_has_error (m : ui.mainModel tk) (msg : Msg) :
  failure_has_error m → failure_has_error (fst (fst (ui.Update tk env m msg))).
Proof.
  unfold failure_has_error. intros Hinv.
  destruct msg as [|W H|k|id|r|i|n]; cbn [ui.Update fst snd].
  - destruct (handleDefault_keeps m NilMsg) as (Hs & He). by rewrite Hs, He.
  - unfold ui.handleWindow. by open_pairs.
  - unfold ui.handleKeyPress. destruct (_ || _); cbn; [done|].
    destruct (ui.state_ tk m) eqn:E; open_pairs; cbn; intros Hs;
      first [congruence | by apply Hinv].
  - unfold ui.handleTick. by open_pairs.
  - unfold ui.handleResult. destruct (Error r); cbn; [done|]. by open_pairs.
  - destruct (Action i) eqn:Ea.
    + unfold ui.handleAction. by rewrite Ea.
    + unfold ui.handleAction. by rewrite Ea.
    + destruct (handleAction_device m i Ea) as (_ & _ & _ & H).
      destruct (fst (ui.sshDevice env (Name i))).
      * destruct H as (Hs & He & _). by rewrite He.
      * destruct H as (Hs & He & _). by rewrite Hs.
  - destruct (handleDefault_keeps m (OtherMsg n)) as (Hs & He). by rewrite Hs, He.
Qed.

Lemma updates_failure_has_error (msgs : list Msg) (m : ui.mainModel tk) :
  failure_has_error m → failure_has_error (ui.updates tk env m msgs).
Proof.
  revert m. induction msgs as [|msg rest IH]; intros m Hinv; [done|].
  cbn. apply IH. by apply Update_failure_has_error.
Qed.

End FrontEnd.

(** X16. The view never faults.  Starting from the model [New] builds,
    after any sequence of messages, a model in the failure state holds
    the error it shows, so [View] always returns a string. *)
Theorem View_never_faults (tk : Toolkit) (env : ui.Env) (ts : nat) (msgs : list Msg) :
  failure_has_error (ui.updates tk env (ui.New_model tk ts) msgs)
  ∧ is_Some (ui.View tk (ui.updates tk env (ui.New_model tk ts) msgs)).
Proof.
  assert (H : failure_has_error (ui.updates tk env (ui.New_model tk ts) msgs)).
  { apply updates_failure_has_error. intros Hs. discriminate Hs. }
  split; [exact H|]. unfold ui.View, failure_has_error in *.
  destruct (ui.state_ tk _); eauto.
  destruct (ui.err tk _); [eauto | by destruct H].
Qed.

(** X17. When the fetch of the devices ends, loading ends with it.  The
    service is asked once for its devices, and that is the only call that
    leaves the process.  If the service failed, the model shows the
    failure with the service's error and the device list is untouched;
    otherwise the model shows the device list, which has been given
    exactly the items of the tagged devices.  The main menu is untouched
    either way. *)
Theorem fetchDevices_outcome (tk : Toolkit) (env : ui.Env) (m : ui.mainModel tk) :
  let m' := fst (fst (ui.fetchDevices tk env m)) in
  ui.mainMenu tk m' = ui.mainMenu tk m
  ∧ snd (ui.fetchDevices tk env m) = [ui.DevicesEv]
  ∧ match snd (ui.ts_Devices env) with
    | Some e =>
        ui.state_ tk m' = ui.stateFailure
        ∧ ui.err tk m' = Some e
        ∧ ui.deviceList tk m' = ui.deviceList tk m
    | None =>
        ui.state_ tk m' = ui.stateDevice
        ∧ ui.err tk m' = ui.err tk m
        ∧ components.list_ tk (ui.deviceList tk m') =
            fst (list_SetItems tk (ui.tagged_items (fst (ui.ts_Devices env)))
                   (components.list_ tk (ui.deviceList tk m)))
    end.
Proof.
  unfold ui.fetchDevices. destruct (ui.ts_Devices env) as [devices [e|]]; cbn.
  - done.
  - unfold ui.handleResult. cbn. rewrite SetItems_passes. cbn. done.
Qed.

(** X18. A device action never leaves the model loading.  The SSH
    session is dialed over tcp to port 22 of the chosen host as user
    ubuntu; if the dial fails nothing is closed and the model shows that
    failure; otherwise the terminal is started and the client is closed
    afterwards whether or not the terminal failed, and the model shows the
    terminal's failure or goes back to the menu.  The device list is left
    as it was and no command is returned. *)
Theorem device_action_outcome (tk : Toolkit) (env : ui.Env) (m : ui.mainModel tk)
  (item : ListItem) :
  Action item = tssh.ActionDeviceSSH →
  let r := ui.Update tk env m (ListItemMsg item) in
  let m' := fst (fst r) in
  let config := mkClientConfig "ubuntu" InsecureIgnoreHostKey [] "" in
  let addr := Name item +:+ ":22" in
  snd (fst r) = CmdNil
  ∧ ui.state_ tk m' ≠ ui.stateLoading
  ∧ ui.deviceList tk m' = ui.deviceList tk m
  ∧ match ui.sshclient_Dial env "tcp" addr config with
    | inl e =>
        snd r = [ui.DialEv "tcp" addr config]
        ∧ ui.state_ tk m' = ui.stateFailure ∧ ui.err tk m' = Some e
    | inr c =>
        snd r = [ui.DialEv "tcp" addr config;
                 ui.TerminalEv c (ui.mkTerminalConfig "xterm" 40 80);
                 ui.CloseEv c]
        ∧ match ui.Terminal_Start env c (ui.mkTerminalConfig "xterm" 40 80) with
          | Some e => ui.state_ tk m' = ui.stateFailure ∧ ui.err tk m' = Some e
          | None => ui.state_ tk m' = ui.stateMenu ∧ ui.err tk m' = ui.err tk m
          end
    end.
Proof.
  intros Ha r m' config addr. subst r m'. cbn [ui.Update].
  destruct (handleAction_device tk env m item Ha) as (Hc & Hev & Hdl & Hst).
  rewrite Hc, Hev, Hdl. split; [done|]. unfold ui.sshDevice in *. fold config addr in Hst |- *.
  destruct (ui.sshclient_Dial env "tcp" addr config) as [e|c]; cbn in *.
  - destruct Hst as (Hs & He & _). rewrite Hs. done.
  - destruct (ui.Terminal_Start env c _); destruct Hst as (Hs & He & _);
      rewrite Hs; done.
Qed.

Lemma device_action_outcome_witness :
  snd (ui.Update plain_toolkit plain_ui_env (ui.New_model plain_toolkit 0)
         (ListItemMsg (mkListItem "build-1" "ci@example.com" tssh.ActionDeviceSSH)))
  = [ui.DialEv "tcp" "build-1:22" (mkClientConfig "ubuntu" InsecureIgnoreHostKey [] "");
     ui.TerminalEv 5 (ui.mkTerminalConfig "xterm" 40 80);
     ui.CloseEv 5].
Proof.
  apply (device_action_outcome plain_toolkit plain_ui_env (ui.New_model plain_toolkit 0)
           (mkListItem "build-1" "ci@example.com" tssh.ActionDeviceSSH)).
  reflexivity.
Defined.

(** X19. Keys outside the lists.  "ctrl+c" and "q" quit in every state
    and change nothing; while the model is loading or shows a failure,
    every other key is ignored: the model is unchanged and no command is
    returned. *)
Theorem keys_outside_lists (tk : Toolkit) (env : ui.Env) (m : ui.mainModel tk)
  (keypress : string) :
  (keypress = "ctrl+c" ∨ keypress = "q" →
   ui.Update tk env m (KeyMsg keypress) = (m, Quit, []))
  ∧ (keypress ≠ "ctrl+c" → keypress ≠ "q" →
     ui.state_ tk m = ui.stateLoading ∨ ui.state_ tk m = ui.stateFailure →
     ui.Update tk env m (KeyMsg keypress) = (m, CmdNil, [])).
Proof.
  cbn [ui.Update]. unfold ui.handleKeyPress. split.
  - intros [-> | ->]; reflexivity.
  - intros H1 H2 Hs.
    destruct (String.eqb_spec keypress "ctrl+c"); [done|].
    destruct (String.eqb_spec keypress "q"); [done|]. cbn.
    by destruct Hs as [-> | ->].
Qed.

Lemma keys_outside_lists_witness :
  ui.Update plain_toolkit plain_ui_env
    (ui.set_state plain_toolkit ui.stateLoading (ui.New_model plain_toolkit 0))
    (KeyMsg "q")
  = (ui.set_state plain_toolkit ui.stateLoading (ui.New_model plain_toolkit 0), Quit, []).
Proof.
  apply (keys_outside_lists plain_toolkit plain_ui_env
           (ui.set_state plain_toolkit ui.stateLoading (ui.New_model plain_toolkit 0)) "q").
  right. reflexivity.
Defined.

Lemma int_sub_exact (a b : Z) :
  (- 2 ^ 63 ≤ a - b < 2 ^ 63)%Z → int_sub a b = (a - b)%Z.
Proof.
  intros H. unfold int_sub, int_wrap.
  rewrite Z.mod_small by lia. lia.
Qed.

Lemma int_sub_range (a b : Z) : (- 2 ^ 63 ≤ int_sub a b < 2 ^ 63)%Z.
Proof.
  unfold int_sub, int_wrap.
  pose proof (Z.mod_pos_bound (a - b + 2 ^ 63) (2 ^ 64)) as H. lia.
Qed.

Example int_sub_wraps :
  int_sub (-9223372036854775808) 4 = 9223372036854775804%Z.
Proof. reflexivity. Qed.

(** X20. A window-size message is given to the device list only, in
    every state: that list is resized to the window less the frame of the
    application style, the two differences taken on [int] (so wrapping
    around where they leave its range), and then updated with the message;
    the main menu, the spinner, the state and the error are left as they
    were. *)
Theorem window_size_skips_menu (tk : Toolkit) (env : ui.Env) (m : ui.mainModel tk)
  (Width Height : Z) :
  let r := ui.Update tk env m (WindowSizeMsg Width Height) in
  let m' := fst (fst r) in
  let resized :=
    list_SetSize tk (int_sub Width (fst (appStyle_FrameSize tk)))
      (int_sub Height (snd (appStyle_FrameSize tk)))
      (components.list_ tk (ui.deviceList tk m)) in
  ui.mainMenu tk m' = ui.mainMenu tk m
  ∧ ui.loading tk m' = ui.loading tk m
  ∧ ui.state_ tk m' = ui.state_ tk m
  ∧ ui.err tk m' = ui.err tk m
  ∧ components.list_ tk (ui.deviceList tk m')
    = fst (list_Update tk resized (WindowSizeMsg Width Height))
  ∧ snd (fst r) = snd (list_Update tk resized (WindowSizeMsg Width Height))
  ∧ snd r = [].
Proof.
  cbn [ui.Update]. unfold ui.handleWindow. cbn [components.Update].
  unfold components.handleWindow.
  destruct (appStyle_FrameSize tk) as [h v]. cbn [fst snd].
  by destruct (list_Update tk _ (WindowSizeMsg Width Height)).
Qed.

(** X21. Enter with nothing selected does nothing.  While the menu or the
    device list shows and its list has no selected item, the enter key
    changes nothing at all: the list is not even updated with the key,
    and no command is returned. *)
Theorem enter_without_selection (tk : Toolkit) (env : ui.Env) (m : ui.mainModel tk) :
  (ui.state_ tk m = ui.stateMenu
   ∧ list_SelectedItem tk (components.list_ tk (ui.mainMenu tk m)) = None)
  ∨ (ui.state_ tk m = ui.stateDevice
     ∧ list_SelectedItem tk (components.list_ tk (ui.deviceList tk m)) = None) →
  ui.Update tk env m (KeyMsg "enter") = (m, CmdNil, []).
Proof.
  cbn [ui.Update]. unfold ui.handleKeyPress. cbn.
  unfold components.handleKeyPress, components.handleChoose. cbn.
  intros [[Hs Hn] | [Hs Hn]]; rewrite Hs, Hn; by destruct m.
Qed.

Lemma enter_without_selection_witness :
  ui.Update plain_toolkit plain_ui_env
    (ui.set_state plain_toolkit ui.stateDevice (ui.New_model plain_toolkit 0))
    (KeyMsg "enter")
  = (ui.set_state plain_toolkit ui.stateDevice (ui.New_model plain_toolkit 0), CmdNil, []).
Proof.
  apply (enter_without_selection plain_toolkit plain_ui_env
           (ui.set_state plain_toolkit ui.stateDevice (ui.New_model plain_toolkit 0))).
  right. split; reflexivity.
Defined.
